(** * cookies: browser-cookie extraction CLI (main.go)

    A shallow embedding of the orchestration layer of [main.go]: flag
    resolution, aggregation over the cookie stores of the host, the four
    output formatters and the store-error report.

    Conventions of the embedding.
    - A Go [error] is represented by its message (what [err.Error()]
      returns); [None] is the nil error.  Wrapping with [%w] prepends the
      context text.
    - The package-level variables of [main.go] are the fields of
      [Globals]; functions that read or write them thread a [Globals].
    - Calls into the collaborators (the kooky stores, standard output,
      pflag's usage printer) are recorded, in program order, as a trace
      of [event]s.
    - A Go map is a [gmap]; [encoding/json] emits the members of a map in
      sorted key order. *)

From Stdlib Require Import Ascii DecimalString DecimalNat OrdersEx.
From stdpp Require Import gmap strings list fin_maps sorting.

(** ** Go values used by the program *)

(** A slice is nil or a (possibly empty) sequence of elements; the program
    tests [cookies == nil]. *)
Inductive slice (A : Type) : Type :=
  | nil_slice
  | mk_slice (elems : list A).
Arguments nil_slice {A}.
Arguments mk_slice {A} elems.

Definition elems {A} (s : slice A) : list A :=
  match s with
  | nil_slice => []
  | mk_slice l => l
  end.

(** [append(s, xs...)]: appending no element returns [s] itself, so a nil
    slice stays nil until the first element arrives. *)
Definition append {A} (s : slice A) (xs : list A) : slice A :=
  match xs with
  | [] => s
  | _ :: _ => mk_slice (elems s ++ xs)
  end.

Definition is_nil {A} (s : slice A) : bool :=
  match s with
  | nil_slice => true
  | mk_slice _ => false
  end.

Definition error : Type := option string.

(** [fmt.Errorf(ctx + ": %w", err)] *)
Definition wrap (ctx : string) (err : string) : string := ctx +:+ ": " +:+ err.

Module gostrings.
(** [strings.Join(elems, sep)] *)
Fixpoint Join (parts : list string) (sep : string) : string :=
  match parts with
  | [] => ""
  | [p] => p
  | p :: rest => p +:+ sep +:+ Join rest sep
  end.
End gostrings.

Module strconv.
(** [strconv.Itoa] on a non-negative int: its decimal digits. *)
Definition Itoa (n : nat) : string :=
  NilEmpty.string_of_uint (Nat.to_uint n).
End strconv.

(** ** The cookie-store collaborator (package kooky) *)

Module kooky.

Section Types.
(** The values held by the fields of a cookie struct, as
    [reflect.Value.Interface()] hands them out. *)
Context {V : Type}.

(** [kooky.Cookie].  [Name] and [Value] are the fields the program
    selects directly; [Fields] is the struct as reflection sees it:
    its fields with their names, in declaration order. *)
Record Cookie : Type := {
  Name : string;
  Value : string;
  Fields : list (string * V)
}.

(** [kooky.Filter]: the two filters the program builds. *)
Inductive Filter : Type :=
  | Valid
  | DomainContains (d : string).

(** What a call of [store.ReadCookies(filters...)] does: it returns a
    slice (given by its elements) together with an error, or it
    panics. *)
Inductive ReadResult : Type :=
  | ReadReturns (storeCookies : list Cookie) (err : error)
  | ReadPanics (v : string).

(** [kooky.CookieStore], as far as the program uses it.  [Close] has
    no result the program looks at; it shows up in the trace only. *)
Record CookieStore : Type := {
  Browser : string;
  ReadCookies : list Filter -> ReadResult
}.
End Types.

Arguments Cookie : clear implicits.
Arguments ReadResult : clear implicits.
Arguments CookieStore : clear implicits.

End kooky.

(** ** Observable effects *)

Inductive event : Type :=
  | EvFindAllCookieStores
  | EvReadCookies (store : nat) (filters : list kooky.Filter)
  | EvClose (store : nat)
  | EvPrintln (line : string)
  | EvPrintDefaults.

Global Instance Filter_eq_dec : EqDecision kooky.Filter.
Proof. solve_decision. Defined.

Global Instance event_eq_dec : EqDecision event.
Proof. solve_decision. Defined.

(** How a call ends: it returns, it panics, or the process is terminated
    by [os.Exit]. *)
Inductive outcome (A : Type) : Type :=
  | Returns (a : A)
  | Panics (v : string)
  | Exits (code : nat).
Arguments Returns {A} a.
Arguments Panics {A} v.
Arguments Exits {A} code.

(** The package-level variables. *)
Record Globals : Type := {
  browser : string;
  curl : bool;
  domain : string;
  name : string;
  fullCookieInfo : bool;
  showExpired : bool;
  help : bool;
  cookieStoreErrors : list string;
  debug : bool
}.

(** Their values before [parseFlags] runs: zero values, the flag defaults
    being installed by the [pflag.*VarP] calls. *)
Definition initial : Globals := {|
  browser := ""; curl := false; domain := ""; name := "";
  fullCookieInfo := false; showExpired := false; help := false;
  cookieStoreErrors := []; debug := false
|}.

(** A computation of the program: from the globals to an outcome, the
    new globals and the events it caused. *)
Definition Go (A : Type) : Type := Globals -> outcome A * Globals * list event.

Definition ret {A} (a : A) : Go A := fun g => (Returns a, g, []).

Definition bind {A B} (m : Go A) (k : A -> Go B) : Go B := fun g =>
  match m g with
  | (Returns a, g1, t1) =>
      match k a g1 with
      | (o, g2, t2) => (o, g2, t1 ++ t2)
      end
  | (Panics v, g1, t1) => (Panics v, g1, t1)
  | (Exits c, g1, t1) => (Exits c, g1, t1)
  end.

Notation "'call' x <- m ; k" := (bind m (fun x => k))
  (at level 10, x name, m at level 100, k at level 200).
Notation "'call' ' p <- m ; k" := (bind m (fun p => k))
  (at level 10, p pattern, m at level 100, k at level 200).
Notation "'exec' m ; k" := (bind m (fun _ => k))
  (at level 10, m at level 100, k at level 200).

Definition emit (e : event) : Go unit := fun g => (Returns tt, g, [e]).
Definition get : Go Globals := fun g => (Returns g, g, []).
Definition exit {A} (code : nat) : Go A := fun g => (Exits code, g, []).

(** [fmt.Println(s)] *)
Definition Println (s : string) : Go unit := emit (EvPrintln s).

(** Assignments to the package-level variables. *)
Definition set_browser (v : string) (g : Globals) : Globals :=
  {| browser := v; curl := curl g; domain := domain g; name := name g;
     fullCookieInfo := fullCookieInfo g; showExpired := showExpired g;
     help := help g; cookieStoreErrors := cookieStoreErrors g; debug := debug g |}.
Definition set_curl (v : bool) (g : Globals) : Globals :=
  {| browser := browser g; curl := v; domain := domain g; name := name g;
     fullCookieInfo := fullCookieInfo g; showExpired := showExpired g;
     help := help g; cookieStoreErrors := cookieStoreErrors g; debug := debug g |}.
Definition set_domain (v : string) (g : Globals) : Globals :=
  {| browser := browser g; curl := curl g; domain := v; name := name g;
     fullCookieInfo := fullCookieInfo g; showExpired := showExpired g;
     help := help g; cookieStoreErrors := cookieStoreErrors g; debug := debug g |}.
Definition set_name (v : string) (g : Globals) : Globals :=
  {| browser := browser g; curl := curl g; domain := domain g; name := v;
     fullCookieInfo := fullCookieInfo g; showExpired := showExpired g;
     help := help g; cookieStoreErrors := cookieStoreErrors g; debug := debug g |}.
Definition set_fullCookieInfo (v : bool) (g : Globals) : Globals :=
  {| browser := browser g; curl := curl g; domain := domain g; name := name g;
     fullCookieInfo := v; showExpired := showExpired g;
     help := help g; cookieStoreErrors := cookieStoreErrors g; debug := debug g |}.
Definition set_showExpired (v : bool) (g : Globals) : Globals :=
  {| browser := browser g; curl := curl g; domain := domain g; name := name g;
     fullCookieInfo := fullCookieInfo g; showExpired := v;
     help := help g; cookieStoreErrors := cookieStoreErrors g; debug := debug g |}.
Definition set_help (v : bool) (g : Globals) : Globals :=
  {| browser := browser g; curl := curl g; domain := domain g; name := name g;
     fullCookieInfo := fullCookieInfo g; showExpired := showExpired g;
     help := v; cookieStoreErrors := cookieStoreErrors g; debug := debug g |}.
Definition set_cookieStoreErrors (v : list string) (g : Globals) : Globals :=
  {| browser := browser g; curl := curl g; domain := domain g; name := name g;
     fullCookieInfo := fullCookieInfo g; showExpired := showExpired g;
     help := help g; cookieStoreErrors := v; debug := debug g |}.
Definition set_debug (v : bool) (g : Globals) : Globals :=
  {| browser := browser g; curl := curl g; domain := domain g; name := name g;
     fullCookieInfo := fullCookieInfo g; showExpired := showExpired g;
     help := help g; cookieStoreErrors := cookieStoreErrors g; debug := v |}.

(** ** The command line (package pflag)

    The arguments of the process, as the flag settings pflag recognises
    in them, in the order given.  [--curl] alone is [FlagCurl true]. *)
Inductive Flag : Type :=
  | FlagDomain (v : string)
  | FlagBrowser (v : string)
  | FlagCurl (v : bool)
  | FlagExpired (v : bool)
  | FlagFull (v : bool)
  | FlagName (v : string)
  | FlagLogDebug (v : bool)
  | FlagHelp (v : bool).

Definition flagName (f : Flag) : string :=
  match f with
  | FlagDomain _ => "domain"
  | FlagBrowser _ => "browser"
  | FlagCurl _ => "curl"
  | FlagExpired _ => "expired"
  | FlagFull _ => "full"
  | FlagName _ => "name"
  | FlagLogDebug _ => "log-debug"
  | FlagHelp _ => "help"
  end.

(** The variable each flag was bound to by [pflag.*VarP]. *)
Definition setFlag (g : Globals) (f : Flag) : Globals :=
  match f with
  | FlagDomain v => set_domain v g
  | FlagBrowser v => set_browser v g
  | FlagCurl v => set_curl v g
  | FlagExpired v => set_showExpired v g
  | FlagFull v => set_fullCookieInfo v g
  | FlagName v => set_name v g
  | FlagLogDebug v => set_debug v g
  | FlagHelp v => set_help v g
  end.

(** The [pflag.*VarP] calls store each flag's default in its variable. *)
Definition declareFlags (g : Globals) : Globals :=
  {| browser := "chrome"; curl := false; domain := ""; name := "";
     fullCookieInfo := false; showExpired := false; help := false;
     cookieStoreErrors := cookieStoreErrors g; debug := false |}.

(** [pflag.Parse()]: every setting is stored, a later one overriding an
    earlier one of the same flag. *)
Definition Parse (args : list Flag) (g : Globals) : Globals :=
  foldl setFlag g args.

(** [pflag.NFlag()]: the number of flags that have been set. *)
Definition NFlag (args : list Flag) : nat :=
  length (remove_dups (flagName <$> args)).

Definition newline : string := String (ascii_of_nat 10) "".

(** [printUsage]: two lines on standard output, pflag's table of the
    flags, and [os.Exit(0)]. *)
Definition printUsage : Go unit :=
  exec Println "Obtain cookies from your browser stores";
  exec Println (newline +:+ "Use with the following flags:");
  exec emit EvPrintDefaults;
  exit 0.

Definition errDomainRequired : string :=
  "flag domain is required, use either -d $DOMAIN or --domain $DOMAIN".
Definition errMutuallyExclusive : string :=
  "flag 'curl' and flag 'name' are mutually exclusive".

Definition parseFlags (args : list Flag) : Go error :=
  exec (fun g => (Returns tt, Parse args (declareFlags g), []));
  call g <- get;
  exec (if help g || (NFlag args =? 0) then printUsage else ret tt);
  if String.eqb (domain g) "" then ret (Some errDomainRequired)
  else if curl g && negb (String.eqb (name g) "") then ret (Some errMutuallyExclusive)
  else ret None.

(** ** encoding/json, as far as [json.Marshal] is used on maps

    The member keys of a map are emitted in ascending byte order.  The
    encoders of the leaves belong to the library and are taken as given:
    [quote] renders a Go string as a JSON string literal. *)
Module json.

Definition key_le {A} (a b : string * A) : Prop :=
  String_as_OT.compare a.1 b.1 <> Gt.

Global Instance key_le_dec {A} (a b : string * A) : Decision (key_le a b).
Proof. unfold key_le. apply _. Defined.

Definition sortedMembers {A} (m : gmap string A) : list (string * A) :=
  merge_sort key_le (map_to_list m).

Section Marshal.
Variable quote : string -> string.

Definition member (kv : string * string) : string :=
  quote kv.1 +:+ ":" +:+ kv.2.

Definition object (members : list (string * string)) : string :=
  "{" +:+ gostrings.Join (member <$> members) "," +:+ "}".

(** Encoding the members in order; the first failure is the result. *)
Fixpoint encodeMembers {A} (enc : A -> string + string)
    (members : list (string * A)) : list (string * string) + string :=
  match members with
  | [] => inl []
  | (k, v) :: rest =>
      match enc v with
      | inr e => inr e
      | inl j =>
          match encodeMembers enc rest with
          | inr e => inr e
          | inl js => inl ((k, j) :: js)
          end
      end
  end.

(** [json.Marshal] on a [map[string]A] whose values are encoded by
    [enc]: the JSON text, or the error. *)
Definition MarshalMap {A} (enc : A -> string + string)
    (m : gmap string A) : string + string :=
  match encodeMembers enc (sortedMembers m) with
  | inl js => inl (object js)
  | inr e => inr e
  end.

Definition encodeString (s : string) : string + string := inl (quote s).
End Marshal.

End json.

(** The encoder of string literals on text that needs no escaping: the
    text between double quotes. *)
Definition quotePlain (s : string) : string :=
  String (ascii_of_nat 34) s +:+ String (ascii_of_nat 34) "".

(** ** The program *)

Section Program.

(** The values of cookie fields under reflection, and what
    [json.Marshal] makes of one: its JSON text or an error. *)
Context {V : Type}.
Variable quote : string -> string.
Variable encodeValue : V -> string + string.

Local Abbreviation Cookie := (kooky.Cookie V).
Local Abbreviation CookieStore := (kooky.CookieStore V).

(** *** getCookies *)

(** The local state of a call of [getCookies], with the part of the
    globals it writes and the events so far. *)
Record frame : Type := {
  cookies : slice Cookie;
  storeErrors : list string;
  deferred : list nat;
  events : list event
}.

(** [defer store.Close()] for the store at position [i]: the call is
    pushed; it runs when [getCookies] is left. *)
Definition defer_Close (i : nat) (fr : frame) : frame :=
  {| cookies := cookies fr; storeErrors := storeErrors fr;
     deferred := i :: deferred fr; events := events fr |}.

Definition observe (e : event) (fr : frame) : frame :=
  {| cookies := cookies fr; storeErrors := storeErrors fr;
     deferred := deferred fr; events := events fr ++ [e] |}.

Definition record_error (err : error) (fr : frame) : frame :=
  match err with
  | Some e =>
      {| cookies := cookies fr; storeErrors := storeErrors fr ++ [e];
         deferred := deferred fr; events := events fr |}
  | None => fr
  end.

Definition append_cookies (storeCookies : list Cookie) (fr : frame) : frame :=
  {| cookies := append (cookies fr) storeCookies;
     storeErrors := storeErrors fr;
     deferred := deferred fr; events := events fr |}.

(** The filters built for a matching store. *)
Definition buildFilters (showExpired : bool) (domain : string)
    : list kooky.Filter :=
  let filters := [] in
  let filters := if negb showExpired then filters ++ [kooky.Valid] else filters in
  filters ++ [kooky.DomainContains domain].

(** The [for _, store := range cookieStores] loop, from the store at
    position [i] on.  The result says whether the loop was left by a
    panic. *)
Fixpoint rangeStores (browser domain : string) (showExpired : bool)
    (i : nat) (cookieStores : list CookieStore) (fr : frame)
    : option string * frame :=
  match cookieStores with
  | [] => (None, fr)
  | store :: rest =>
      let fr := defer_Close i fr in
      if negb (String.eqb (kooky.Browser store) browser)
      then rangeStores browser domain showExpired (S i) rest fr
      else
        let filters := buildFilters showExpired domain in
        let fr := observe (EvReadCookies i filters) fr in
        match kooky.ReadCookies store filters with
        | kooky.ReadPanics v => (Some v, fr)
        | kooky.ReadReturns storeCookies err =>
            let fr := record_error err fr in
            let fr := append_cookies storeCookies fr in
            rangeStores browser domain showExpired (S i) rest fr
        end
  end.

Definition errNoCookies (browser domain : string) : string :=
  "no cookies for browser " +:+ browser +:+ " and domain " +:+ domain
    +:+ " found.".

(** [host] is what [kooky.FindAllCookieStores()] returns.  The deferred
    [Close] calls run last in, first out, when the function is left,
    be it by [return] or by a panic. *)
Definition getCookies (host : list CookieStore) (browser domain : string)
    : Go (slice Cookie * error) := fun g =>
  let fr := {| cookies := nil_slice; storeErrors := cookieStoreErrors g;
               deferred := []; events := [EvFindAllCookieStores] |} in
  match rangeStores browser domain (showExpired g) 0 host fr with
  | (panic, fr) =>
      let g := set_cookieStoreErrors (storeErrors fr) g in
      let t := events fr ++ (EvClose <$> deferred fr) in
      match panic with
      | Some v => (Panics v, g, t)
      | None =>
          if is_nil (cookies fr)
          then (Returns (nil_slice, Some (errNoCookies browser domain)), g, t)
          else (Returns (cookies fr, None), g, t)
      end
  end.

(** *** The formatters *)

Definition buildCookiesMap (cookies : list Cookie) : gmap string string :=
  foldl (fun m item => <[kooky.Name item := kooky.Value item]> m) ∅ cookies.

Definition serializeCookiesToJson (cookies : list Cookie) : string * error :=
  let cookiesMap := buildCookiesMap cookies in
  match json.MarshalMap quote (json.encodeString quote) cookiesMap with
  | inr err => ("", Some err)
  | inl cookiesJsonBytes => (cookiesJsonBytes, None)
  end.

(** The loop over the fields of one cookie. *)
Definition buildCookieMap (browser : string) (item : Cookie) : gmap string V :=
  foldl (fun m field =>
           if String.eqb field.1 "Container"
              && negb (String.eqb browser "firefox")
           then m
           else <[field.1 := field.2]> m)
        ∅ (kooky.Fields item).

Definition buildFullCookiesMap (browser : string) (cookies : list Cookie)
    : gmap string (gmap string V) :=
  foldl (fun m item => <[kooky.Name item := buildCookieMap browser item]> m)
        ∅ cookies.

Definition serializeFullCookieInfoToJson (cookies : list Cookie)
    : Go (string * error) :=
  call g <- get;
  let cookiesMap := buildFullCookiesMap (browser g) cookies in
  match json.MarshalMap quote (json.MarshalMap quote encodeValue) cookiesMap with
  | inr err => ret ("", Some err)
  | inl cookiesJsonBytes => ret (cookiesJsonBytes, None)
  end.

Definition createCurlCommand (cookies : list Cookie) (domain : string) : string :=
  let cookieParts :=
    foldl (fun cookieParts cookie =>
             cookieParts ++ [kooky.Name cookie +:+ "=" +:+ kooky.Value cookie])
          [] cookies in
  let cookieString := gostrings.Join cookieParts ";" in
  "curl -H 'Cookie: " +:+ cookieString +:+ "' 'https://" +:+ domain +:+ "'".

Definition errEmptyValue : string := "cookie exists but has an empty value".
Definition errDoesNotExist : string := "cookie does not exist".

Fixpoint getCookieValue (cookies : list Cookie) (name : string) : string * error :=
  match cookies with
  | [] => ("", Some errDoesNotExist)
  | cookie :: rest =>
      if String.eqb name (kooky.Name cookie)
      then
        if String.eqb (kooky.Value cookie) ""
        then ("", Some errEmptyValue)
        else (kooky.Value cookie, None)
      else getCookieValue rest name
  end.

(** The loop of [formatStoreErrorsAsJson], from index [i] on. *)
Fixpoint rangeErrors (i : nat) (errs : list string) (jsonErrors : gmap string string)
    : gmap string string :=
  match errs with
  | [] => jsonErrors
  | v :: rest =>
      let key := strconv.Itoa (i + 1) in
      rangeErrors (S i) rest (<[key := v]> jsonErrors)
  end.

Definition formatStoreErrorsAsJson : Go (string * error) :=
  call g <- get;
  let jsonErrors := rangeErrors 0 (cookieStoreErrors g) ∅ in
  match json.MarshalMap quote (json.encodeString quote) jsonErrors with
  | inr err => ret ("", Some err)
  | inl jsonErrorsString => ret (jsonErrorsString, None)
  end.

(** *** run and main *)

(** The [if debug] block of [run]; its result is the error [run]
    returns from inside it, if any. *)
Definition reportStoreErrors : Go error :=
  call g <- get;
  if debug g
  then
    call '(jsonCookieStoreErrors, err) <- formatStoreErrorsAsJson;
    match err with
    | Some e => ret (Some (wrap "failed to marshal errors to json" e))
    | None => exec Println jsonCookieStoreErrors; ret None
    end
  else ret None.

(** The [if name != "" ... else if curl ... ] chain of [run]. *)
Definition printResult (cookies : list Cookie) : Go error :=
  call g <- get;
  if negb (String.eqb (name g) "")
  then
    match getCookieValue cookies (name g) with
    | (_, Some e) =>
        ret (Some (wrap ("failed to get value for cookie " +:+ name g) e))
    | (cookie_value, None) => exec Println cookie_value; ret None
    end
  else if curl g
  then exec Println (createCurlCommand cookies (domain g)); ret None
  else if fullCookieInfo g
  then
    call '(cookieJson, err) <- serializeFullCookieInfoToJson cookies;
    match err with
    | Some e => ret (Some (wrap "failed to create JSON" e))
    | None => exec Println cookieJson; ret None
    end
  else
    match serializeCookiesToJson cookies with
    | (_, Some e) => ret (Some (wrap "failed to create JSON" e))
    | (cookieJson, None) => exec Println cookieJson; ret None
    end.

(** What [run] does once it holds the cookies: the debug block, then the
    selected formatter. *)
Definition reportAndPrint (cookies : slice Cookie) : Go error :=
  call err <- reportStoreErrors;
  match err with
  | Some e => ret (Some e)
  | None => printResult (elems cookies)
  end.

Definition run (host : list CookieStore) (args : list Flag) : Go error :=
  call err <- parseFlags args;
  match err with
  | Some e => ret (Some (wrap "incorrect flag usage" e))
  | None =>
      call g <- get;
      call '(cookies, err) <- getCookies host (browser g) (domain g);
      match err with
      | Some e => ret (Some (wrap "failed to obtain cookies" e))
      | None => reportAndPrint cookies
      end
  end.

(** [main]: the exit status of the process and what it did.  A non-nil
    error goes to [log.Fatal], which exits with status 1; a panic that
    nobody recovers ends the process with status 2. *)
Definition main (host : list CookieStore) (args : list Flag) : nat * list event :=
  match run host args initial with
  | (Returns None, _, t) => (0, t)
  | (Returns (Some _), _, t) => (1, t)
  | (Panics _, _, t) => (2, t)
  | (Exits code, _, t) => (code, t)
  end.

End Program.

(** ** Vocabulary of the properties *)

Section Vocabulary.

Context {V : Type}.

(** The stores of the requested browser, in enumeration order, and what
    their reads do. *)
Definition matching (browser : string) (host : list (kooky.CookieStore V))
    : list (kooky.CookieStore V) :=
  filter (fun s => kooky.Browser s = browser) host.

Definition reads (browser : string) (filters : list kooky.Filter)
    (host : list (kooky.CookieStore V)) : list (kooky.ReadResult V) :=
  (fun s => kooky.ReadCookies s filters) <$> matching browser host.

Definition returned (r : kooky.ReadResult V) : Prop :=
  match r with
  | kooky.ReadReturns _ _ => True
  | kooky.ReadPanics _ => False
  end.

(** The cookies a read handed back, with or without an error. *)
Definition cookiesOf (r : kooky.ReadResult V) : list (kooky.Cookie V) :=
  match r with
  | kooky.ReadReturns storeCookies _ => storeCookies
  | kooky.ReadPanics _ => []
  end.

(** The cookies of a read that succeeded: it returned a nil error. *)
Definition cookiesOfSuccess (r : kooky.ReadResult V) : list (kooky.Cookie V) :=
  match r with
  | kooky.ReadReturns storeCookies None => storeCookies
  | _ => []
  end.

Definition errorOf (r : kooky.ReadResult V) : list string :=
  match r with
  | kooky.ReadReturns _ (Some e) => [e]
  | _ => []
  end.

Definition returnedCookies (browser : string) (filters : list kooky.Filter)
    (host : list (kooky.CookieStore V)) : list (kooky.Cookie V) :=
  concat (cookiesOf <$> reads browser filters host).

(** The aggregate in the words of the specification: the concatenation
    of the successfully read sequences only. *)
Definition successfullyRead (browser : string) (filters : list kooky.Filter)
    (host : list (kooky.CookieStore V)) : list (kooky.Cookie V) :=
  concat (cookiesOfSuccess <$> reads browser filters host).

Definition readErrors (browser : string) (filters : list kooky.Filter)
    (host : list (kooky.CookieStore V)) : list string :=
  concat (errorOf <$> reads browser filters host).

(** How many stores the loop of [getCookies] gets to: all of them, or
    those up to and including the first one whose read panics. *)
Fixpoint reached (browser : string) (filters : list kooky.Filter)
    (host : list (kooky.CookieStore V)) : nat :=
  match host with
  | [] => 0
  | s :: rest =>
      if decide (kooky.Browser s = browser)
      then
        match kooky.ReadCookies s filters with
        | kooky.ReadPanics _ => 1
        | kooky.ReadReturns _ _ => S (reached browser filters rest)
        end
      else S (reached browser filters rest)
  end.

(** The last record of [cookies] bearing [name] is [c]. *)
Definition lastNamed (cookies : list (kooky.Cookie V)) (name : string)
    (c : kooky.Cookie V) : Prop :=
  exists pre post,
    cookies = pre ++ c :: post /\ kooky.Name c = name /\
    Forall (fun c' => kooky.Name c' <> name) post.

(** The first record of [cookies] bearing [name] is [c]. *)
Definition firstNamed (cookies : list (kooky.Cookie V)) (name : string)
    (c : kooky.Cookie V) : Prop :=
  exists pre post,
    cookies = pre ++ c :: post /\ kooky.Name c = name /\
    Forall (fun c' => kooky.Name c' <> name) pre.

End Vocabulary.

(** How often store [i] is closed in a trace. *)
Definition closes (t : list event) (i : nat) : nat :=
  count_occ event_eq_dec t (EvClose i).

(** The lines written to standard output, in order. *)
Definition stdout (t : list event) : list string :=
  omap (fun e => match e with EvPrintln s => Some s | _ => None end) t.

(** The events of the reads. *)
Definition isRead (e : event) : Prop :=
  match e with
  | EvReadCookies _ _ => True
  | _ => False
  end.

(** The error class of flag resolution. *)
Definition ConfigError (e : string) : Prop :=
  e = errDomainRequired \/ e = errMutuallyExclusive.

(** The exit status of the process for an outcome of [run]. *)
Definition exitStatus (o : outcome error) : nat :=
  match o with
  | Returns None => 0
  | Returns (Some _) => 1
  | Panics _ => 2
  | Exits code => code
  end.

(** The read events of the loop of [getCookies], from position [i] on:
    one for every store of the requested browser the loop gets to. *)
Fixpoint readEvents {V} (browser : string) (filters : list kooky.Filter)
    (i : nat) (host : list (kooky.CookieStore V)) : list event :=
  match host with
  | [] => []
  | s :: rest =>
      if decide (kooky.Browser s = browser)
      then
        EvReadCookies i filters
          :: match kooky.ReadCookies s filters with
             | kooky.ReadPanics _ => []
             | kooky.ReadReturns _ _ => readEvents browser filters (S i) rest
             end
      else readEvents browser filters (S i) rest
  end.

(** The command lines that get the usage text: help is set, or
    [pflag.NFlag()] is 0, no flag having been set. *)
Definition usageRequested (args : list Flag) : Prop :=
  help (Parse args (declareFlags initial)) = true \/ NFlag args = 0.

(** The command lines that pass both checks of [parseFlags]. *)
Definition flagsAccepted (args : list Flag) : Prop :=
  let g := Parse args (declareFlags initial) in
  help g = false /\ NFlag args <> 0 /\ domain g <> ""
  /\ ~ (curl g = true /\ name g <> "").

(** The line of the debug block for a list of store errors. *)
Definition errorLine (quote : string -> string) (errs : list string) : string :=
  json.object quote
    ((fun kv => (kv.1, quote kv.2))
       <$> json.sortedMembers (rangeErrors 0 errs ∅)).

(** ** Example data

    Cookies whose fields hold text, encoded as plain string literals, and
    a few stores: one that reads two cookies, one that fails with
    "locked", one that fails with "locked" and still hands back a cookie,
    a firefox store, and one whose read panics. *)

Definition encodePlain (s : string) : string + string := inl (quotePlain s).

Definition exampleCookie (n v : string) : kooky.Cookie string :=
  {| kooky.Name := n; kooky.Value := v;
     kooky.Fields := [("Cookie", n +:+ "=" +:+ v);
                      ("Creation", "2024-01-01T00:00:00Z");
                      ("Container", "work")] |}.

Definition sid : kooky.Cookie string := exampleCookie "sid" "abc".
Definition theme : kooky.Cookie string := exampleCookie "theme" "dark".

Definition storeReturning (b : string) (cs : list (kooky.Cookie string))
    (err : error) : kooky.CookieStore string :=
  {| kooky.Browser := b; kooky.ReadCookies := fun _ => kooky.ReadReturns cs err |}.

Definition chromeStore : kooky.CookieStore string :=
  storeReturning "chrome" [sid; theme] None.
Definition lockedStore : kooky.CookieStore string :=
  storeReturning "chrome" [] (Some "locked").
Definition partialStore : kooky.CookieStore string :=
  storeReturning "chrome" [sid] (Some "locked").
Definition firefoxStore : kooky.CookieStore string :=
  storeReturning "firefox" [exampleCookie "fx" "1"] None.
Definition panickingStore : kooky.CookieStore string :=
  {| kooky.Browser := "chrome";
     kooky.ReadCookies := fun _ => kooky.ReadPanics "database is nil" |}.

Definition scenarioHost : list (kooky.CookieStore string) :=
  [chromeStore; lockedStore].

(** A cookie whose creation time lies beyond the years [encoding/json]
    writes, with an encoder that refuses that value the way the library
    refuses such a time. *)
Definition errYearOutOfRange : string :=
  "json: error calling MarshalJSON for type time.Time: Time.MarshalJSON: year outside of range [0,9999]".

Definition encodeInRange (s : string) : string + string :=
  if String.eqb s "10000-01-01T00:00:00Z" then inr errYearOutOfRange
  else inl (quotePlain s).

Definition farFuture : kooky.Cookie string :=
  {| kooky.Name := "sid"; kooky.Value := "abc";
     kooky.Fields := [("Cookie", "sid=abc");
                      ("Creation", "10000-01-01T00:00:00Z");
                      ("Container", "")] |}.

Definition exampleFilters : list kooky.Filter :=
  [kooky.Valid; kooky.DomainContains "example.com"].

Definition debugArgs : list Flag :=
  [FlagDomain "example.com"; FlagLogDebug true].

(** The globals after flag resolution of [debugArgs], and the trace of
    the aggregation over [scenarioHost]. *)
Definition debugGlobals : Globals :=
  {| browser := "chrome"; curl := false; domain := "example.com"; name := "";
     fullCookieInfo := false; showExpired := false; help := false;
     cookieStoreErrors := []; debug := true |}.

Definition scenarioTrace : list event :=
  [EvFindAllCookieStores;
   EvReadCookies 0 exampleFilters; EvReadCookies 1 exampleFilters;
   EvClose 1; EvClose 0].

(** * Properties *)

(** ** Slices *)

Lemma elems_append {A} (s : slice A) (xs : list A) :
  elems (append s xs) = elems s ++ xs.
Proof. destruct xs; simpl; [by rewrite app_nil_r | done]. Qed.

Lemma append_append {A} (s : slice A) (xs ys : list A) :
  append (append s xs) ys = append s (xs ++ ys).
Proof.
  destruct xs as [|x xs]; [done|].
  destruct ys as [|y ys]; simpl.
  - by rewrite app_nil_r.
  - by rewrite <- app_assoc.
Qed.

Lemma is_nil_append {A} (xs : list A) :
  is_nil (append nil_slice xs) = true <-> xs = [].
Proof. destruct xs; simpl; split; done. Qed.

(** ** The loop of getCookies *)

Section Properties.

Context {V : Type}.
Variable quote : string -> string.
Variable encodeValue : V -> string + string.

Local Abbreviation Cookie := (kooky.Cookie V).
Local Abbreviation CookieStore := (kooky.CookieStore V).

Implicit Types (host pre post : list CookieStore) (fr : @frame V).
Implicit Types (browser domain : string) (g : Globals).

Lemma eqb_browser (s : CookieStore) browser :
  negb (String.eqb (kooky.Browser s) browser)
  = if decide (kooky.Browser s = browser) then false else true.
Proof.
  destruct (String.eqb_spec (kooky.Browser s) browser); by case_decide.
Qed.

Lemma rangeStores_deferred browser domain se host : forall i fr,
  deferred (rangeStores browser domain se i host fr).2
  = rev (seq i (reached browser (buildFilters se domain) host)) ++ deferred fr.
Proof.
  induction host as [|s rest IH]; intros i fr; simpl; [done|].
  rewrite eqb_browser. case_decide.
  - destruct (kooky.ReadCookies s _) as [cs err|v]; simpl.
    + rewrite IH. destruct err; simpl; by rewrite <- app_assoc.
    + done.
  - rewrite IH. simpl. by rewrite <- app_assoc.
Qed.

Lemma rangeStores_events browser domain se host : forall i fr,
  exists evs,
    events (rangeStores browser domain se i host fr).2 = events fr ++ evs
    /\ Forall isRead evs.
Proof.
  induction host as [|s rest IH]; intros i fr; simpl.
  - exists []. by rewrite app_nil_r.
  - rewrite eqb_browser. case_decide.
    + destruct (kooky.ReadCookies s _) as [cs err|v]; simpl.
      * edestruct IH as (evs & -> & Hevs).
        eexists (_ :: evs). split.
        -- destruct err; simpl; by rewrite <- app_assoc.
        -- by constructor.
      * eexists [_]. split; [done|]. by constructor.
    + edestruct IH as (evs & -> & Hevs). by exists evs.
Qed.

Lemma reached_returned browser filters host :
  Forall returned (reads browser filters host) ->
  reached browser filters host = length host.
Proof.
  unfold reads, matching. induction host as [|s rest IH]; simpl; [done|].
  rewrite filter_cons. case_decide; simpl.
  - intros Hall. apply Forall_cons in Hall as [Hs Hrest].
    destruct (kooky.ReadCookies s filters); [|done]. by rewrite IH.
  - intros Hall. by rewrite IH.
Qed.

Lemma reached_app browser filters pre rest :
  Forall returned (reads browser filters pre) ->
  reached browser filters (pre ++ rest)
  = length pre + reached browser filters rest.
Proof.
  unfold reads, matching. induction pre as [|s pre IH]; simpl; [done|].
  rewrite filter_cons. case_decide; simpl.
  - intros Hall. apply Forall_cons in Hall as [Hs Hrest].
    destruct (kooky.ReadCookies s filters); [|done]. by rewrite IH.
  - intros Hall. by rewrite IH.
Qed.

Lemma reached_cons_pos browser filters (s : CookieStore) rest :
  0 < reached browser filters (s :: rest).
Proof.
  simpl. case_decide; [destruct (kooky.ReadCookies s filters)|]; lia.
Qed.

(** When every read returns, the loop runs to its end: the cookies it
    has collected are those the reads returned, in order, and so are the
    error texts. *)
Lemma rangeStores_returned browser domain se host : forall i fr,
  Forall returned (reads browser (buildFilters se domain) host) ->
  let res := rangeStores browser domain se i host fr in
  res.1 = None
  /\ cookies res.2
     = append (cookies fr) (returnedCookies browser (buildFilters se domain) host)
  /\ storeErrors res.2
     = storeErrors fr ++ readErrors browser (buildFilters se domain) host.
Proof.
  unfold returnedCookies, readErrors, reads, matching.
  induction host as [|s rest IH]; intros i fr; simpl.
  - intros _. by rewrite app_nil_r.
  - rewrite filter_cons, eqb_browser. case_decide; simpl.
    + intros Hall. apply Forall_cons in Hall as [Hs Hrest].
      destruct (kooky.ReadCookies s _) as [cs err|v]; [|done].
      match goal with
      | |- context [rangeStores _ _ _ _ _ ?f] =>
          destruct (IH (S i) f Hrest) as (-> & -> & ->)
      end.
      destruct err; simpl; rewrite append_append; split_and!; try done.
      by rewrite <- app_assoc.
    + intros Hall. by destruct (IH (S i) (defer_Close i fr) Hall) as (-> & -> & ->).
Qed.

(** The deferred calls are the only source of [Close] events. *)
Lemma closes_app t1 t2 i : closes (t1 ++ t2) i = closes t1 i + closes t2 i.
Proof. apply count_occ_app. Qed.

Lemma closes_reads evs i : Forall isRead evs -> closes evs i = 0.
Proof.
  unfold closes. induction 1 as [|e evs He _ IH]; simpl; [done|].
  by destruct (event_eq_dec e (EvClose i)) as [->|].
Qed.

Lemma closes_deferred (l : list nat) i :
  closes (EvClose <$> l) i = count_occ Nat.eq_dec l i.
Proof.
  unfold closes. induction l as [|j l IH]; [done|].
  rewrite fmap_cons. destruct (decide (j = i)) as [->|Hne].
  - rewrite !count_occ_cons_eq by done. by rewrite IH.
  - rewrite !count_occ_cons_neq by congruence. done.
Qed.

Lemma count_occ_seq i n k :
  count_occ Nat.eq_dec (seq i n) k = if decide (i <= k < i + n) then 1 else 0.
Proof.
  revert i. induction n as [|n IH]; intros i; simpl.
  - case_decide; [lia|done].
  - rewrite IH. destruct (Nat.eq_dec i k); repeat case_decide; lia.
Qed.

(** The trace of a call of [getCookies]: the enumeration, the reads, and
    then the deferred closes, last in, first out. *)
Lemma getCookies_trace host browser domain g :
  exists evs,
    Forall isRead evs /\
    (getCookies host browser domain g).2
    = EvFindAllCookieStores :: evs
      ++ (EvClose <$> rev (seq 0 (reached browser
                                    (buildFilters (showExpired g) domain) host))).
Proof.
  unfold getCookies.
  pose proof (rangeStores_deferred browser domain (showExpired g) host 0
    {| cookies := nil_slice; storeErrors := cookieStoreErrors g;
       deferred := []; events := [EvFindAllCookieStores] |}) as Hd.
  destruct (rangeStores_events browser domain (showExpired g) host 0
    {| cookies := nil_slice; storeErrors := cookieStoreErrors g;
       deferred := []; events := [EvFindAllCookieStores] |}) as (evs & He & Hevs).
  destruct (rangeStores _ _ _ _ _ _) as [p fr']. simpl in *.
  exists evs. split; [done|].
  rewrite app_nil_r in Hd.
  assert (events fr' ++ (EvClose <$> deferred fr')
          = EvFindAllCookieStores :: evs ++ (EvClose <$> rev (seq 0
              (reached browser (buildFilters (showExpired g) domain) host))))
    as Ht by (by rewrite He, Hd).
  destruct p; [|destruct (is_nil _)]; simpl; done.
Qed.

Lemma getCookies_closes host browser domain g i :
  closes (getCookies host browser domain g).2 i
  = if decide (i < reached browser (buildFilters (showExpired g) domain) host)
    then 1 else 0.
Proof.
  destruct (getCookies_trace host browser domain g) as (evs & Hevs & ->).
  change (EvFindAllCookieStores :: ?l) with ([EvFindAllCookieStores] ++ l).
  rewrite !closes_app, (closes_reads evs) by done.
  rewrite closes_deferred. unfold closes. simpl.
  rewrite count_occ_rev, count_occ_seq.
  repeat case_decide; lia.
Qed.

(** When every read returns, so does [getCookies]: with the cookies the
    reads returned, or with the error when there are none. *)
Lemma getCookies_returned host browser domain g :
  let filters := buildFilters (showExpired g) domain in
  Forall returned (reads browser filters host) ->
  (getCookies host browser domain g).1
  = (Returns
       (if decide (returnedCookies browser filters host = [])
        then (nil_slice, Some (errNoCookies browser domain))
        else (mk_slice (returnedCookies browser filters host), None)),
     set_cookieStoreErrors
       (cookieStoreErrors g ++ readErrors browser filters host) g).
Proof.
  intros filters Hall. unfold getCookies.
  destruct (rangeStores_returned browser domain (showExpired g) host 0
    {| cookies := nil_slice; storeErrors := cookieStoreErrors g;
       deferred := []; events := [EvFindAllCookieStores] |} Hall)
    as (Hp & Hc & He).
  destruct (rangeStores _ _ _ _ _ _) as [p fr']. simpl in *. subst p.
  rewrite Hc, He. fold filters.
  by destruct (returnedCookies browser filters host) as [|c cs].
Qed.

Lemma successfullyRead_returned browser filters host :
  Forall (fun r => errorOf r <> [] -> cookiesOf r = [])
         (reads browser filters host) ->
  successfullyRead browser filters host = returnedCookies browser filters host.
Proof.
  unfold successfullyRead, returnedCookies.
  induction (reads browser filters host) as [|r rs IH]; [done|].
  intros Hall. apply Forall_cons in Hall as [Hr Hrs].
  rewrite !fmap_cons. simpl. rewrite (IH Hrs). f_equal.
  destruct r as [cs [e|]|v]; simpl in *; [|done..].
  symmetry. by apply Hr.
Qed.

(** C1, as amended.  When the reads of the stores of the requested
    browser return, [getCookies] returns, and the slice it has built holds
    the cookie sequences those reads returned, concatenated in
    store-enumeration order with each sequence in its own order.  The
    error text of every failed read is appended to [cookieStoreErrors] in
    encounter order, and the loop goes on with the next store.  The
    cookies a read returns together with an error are part of the
    aggregate; when failed reads return no cookies, the aggregate is the
    concatenation of the successfully read sequences. *)
Theorem getCookies_aggregates_returned_reads host browser domain g :
  let filters := buildFilters (showExpired g) domain in
  Forall returned (reads browser filters host) ->
  exists cookies err t,
    getCookies host browser domain g
    = (Returns (cookies, err),
       set_cookieStoreErrors
         (cookieStoreErrors g ++ readErrors browser filters host) g,
       t)
    /\ elems cookies = returnedCookies browser filters host
    /\ (Forall (fun r => errorOf r <> [] -> cookiesOf r = [])
               (reads browser filters host) ->
        elems cookies = successfullyRead browser filters host).
Proof.
  intros filters Hall.
  pose proof (getCookies_returned host browser domain g Hall) as Hres.
  fold filters in Hres.
  destruct (getCookies host browser domain g) as [[o g'] t].
  simpl in Hres. injection Hres as -> ->.
  case_decide as Hnil; eexists _, _, t; (split; [done|]); simpl.
  - rewrite Hnil. split; [done|].
    intros Hfailed. by rewrite successfullyRead_returned, Hnil.
  - split; [done|].
    intros Hfailed. by rewrite successfullyRead_returned.
Qed.

(** C2.  The store at position [length pre] is closed exactly once in a
    call of [getCookies] as soon as the loop gets to it, that is, when the
    reads of the stores before it return: whether or not its browser is
    the requested one, whether its own read succeeds, fails or panics,
    and whatever the stores after it are or do.  In particular, when all
    reads return, [getCookies] returns and its trace holds exactly one
    close of every enumerated store. *)
Theorem every_store_closed_exactly_once host browser domain g :
  let filters := buildFilters (showExpired g) domain in
  let res := getCookies host browser domain g in
  (Forall returned (reads browser filters host) ->
     (exists r, res.1.1 = Returns r)
     /\ forall i, i < length host -> closes res.2 i = 1)
  /\ (forall pre s post,
        host = pre ++ s :: post ->
        Forall returned (reads browser filters pre) ->
        closes res.2 (length pre) = 1).
Proof.
  intros filters res. subst res. split.
  - intros Hall. split.
    + rewrite (getCookies_returned host browser domain g Hall). by eexists.
    + intros i Hi. rewrite getCookies_closes.
      fold filters. rewrite reached_returned by done. by case_decide.
  - intros pre s post -> Hpre. rewrite getCookies_closes.
    fold filters. rewrite reached_app by done.
    pose proof (reached_cons_pos browser filters s post).
    case_decide; [done|lia].
Qed.

(** C4, as amended.  When the reads return, [getCookies] fails, with the
    "no cookies ... found" error, if and only if the reads of the stores
    of the requested browser returned no cookie at all, the cookies
    returned together with an error included.  The error texts recorded
    on the way have no part in this: with at least one cookie returned
    the result is a nil error, whatever was recorded. *)
Theorem getCookies_fails_iff_no_cookie_returned host browser domain g :
  let filters := buildFilters (showExpired g) domain in
  Forall returned (reads browser filters host) ->
  exists cookies err,
    (getCookies host browser domain g).1.1 = Returns (cookies, err)
    /\ (err = Some (errNoCookies browser domain)
        <-> returnedCookies browser filters host = [])
    /\ (err = None <-> returnedCookies browser filters host <> [])
    /\ (Forall (fun r => errorOf r <> [] -> cookiesOf r = [])
               (reads browser filters host) ->
        (err = Some (errNoCookies browser domain)
         <-> successfullyRead browser filters host = [])).
Proof.
  intros filters Hall.
  rewrite (getCookies_returned host browser domain g Hall). fold filters.
  simpl. case_decide as Hnil.
  - eexists _, _. split; [done|]. rewrite Hnil.
    split_and!; [done| |].
    + split; [done|]. by intros [].
    + intros Hfailed. by rewrite successfullyRead_returned, Hnil.
  - eexists _, _. split; [done|].
    split_and!; [| |].
    + split; [done|]. by intros ?.
    + done.
    + intros Hfailed. rewrite successfullyRead_returned by done.
      split; [done|]. by intros ?.
Qed.

(** ** Single-value lookup *)

Lemma getCookieValue_skip (pre rest : list Cookie) name :
  Forall (fun c => kooky.Name c <> name) pre ->
  getCookieValue (pre ++ rest) name = getCookieValue rest name.
Proof.
  induction 1 as [|c pre Hc _ IH]; simpl; [done|].
  destruct (String.eqb_spec name (kooky.Name c)); [by subst|done].
Qed.

Lemma firstNamed_or_absent (cookies : list Cookie) name :
  (exists c, firstNamed cookies name c)
  \/ Forall (fun c => kooky.Name c <> name) cookies.
Proof.
  induction cookies as [|c rest [(c' & pre & post & -> & Hn & Hpre)|IH]].
  - right. constructor.
  - destruct (decide (kooky.Name c = name)) as [Heq|Hne].
    + left. exists c, [], (pre ++ c' :: post). by split_and!.
    + left. exists c', (c :: pre), post. split_and!; [done..|by constructor].
  - destruct (decide (kooky.Name c = name)) as [Heq|Hne].
    + left. exists c, [], rest. by split_and!.
    + right. by constructor.
Qed.

(** C3.  [getCookieValue] depends on the sequence and the name only.  It
    returns the value of the first record whose name is exactly the
    requested one when that value is not empty, the "empty value" error
    when it is empty, and the "does not exist" error when no record bears
    the name; one of the three cases always applies. *)
Theorem getCookieValue_first_exact_match (cookies : list Cookie) name :
  (forall c, firstNamed cookies name c -> kooky.Value c <> "" ->
     getCookieValue cookies name = (kooky.Value c, None))
  /\ (forall c, firstNamed cookies name c -> kooky.Value c = "" ->
        getCookieValue cookies name = ("", Some errEmptyValue))
  /\ (Forall (fun c => kooky.Name c <> name) cookies ->
        getCookieValue cookies name = ("", Some errDoesNotExist))
  /\ ((exists c, firstNamed cookies name c)
      \/ Forall (fun c => kooky.Name c <> name) cookies).
Proof.
  split_and!.
  - intros c (pre & post & -> & Hn & Hpre) Hv.
    rewrite getCookieValue_skip by done. simpl.
    rewrite Hn, String.eqb_refl.
    by destruct (String.eqb_spec (kooky.Value c) "").
  - intros c (pre & post & -> & Hn & Hpre) Hv.
    rewrite getCookieValue_skip by done. simpl.
    by rewrite Hn, String.eqb_refl, Hv.
  - intros Hall. rewrite <- (app_nil_r cookies).
    by rewrite getCookieValue_skip.
  - apply firstNamed_or_absent.
Qed.

(** ** The curl command *)

Lemma foldl_snoc_fmap {A B} (f : A -> B) (l : list A) (acc : list B) :
  foldl (fun parts x => parts ++ [f x]) acc l = acc ++ (f <$> l).
Proof.
  revert acc. induction l as [|x l IH]; intros acc; simpl.
  - by rewrite app_nil_r.
  - by rewrite IH, <- app_assoc.
Qed.

(** C6.  The curl command is the fixed text around the cookie header and
    the domain as given.  The header joins one [name=value] pair per
    record of the sequence with semicolons, in sequence order, records of
    equal name included: two records named a with the values 1 and 2 give
    [a=1;a=2]. *)
Theorem createCurlCommand_exact (cookies : list Cookie) domain :
  createCurlCommand cookies domain
  = "curl -H 'Cookie: "
    +:+ gostrings.Join
          ((fun c => kooky.Name c +:+ "=" +:+ kooky.Value c) <$> cookies) ";"
    +:+ "' 'https://" +:+ domain +:+ "'"
  /\ (forall fields1 fields2 : list (string * V),
        createCurlCommand
          [ {| kooky.Name := "a"; kooky.Value := "1"; kooky.Fields := fields1 |};
            {| kooky.Name := "a"; kooky.Value := "2"; kooky.Fields := fields2 |} ]
          domain
        = "curl -H 'Cookie: a=1;a=2' 'https://" +:+ domain +:+ "'").
Proof.
  split; [|done].
  unfold createCurlCommand. by rewrite foldl_snoc_fmap.
Qed.

(** ** Flag resolution *)

Lemma parseFlags_usage args g :
  help (Parse args (declareFlags g)) = true \/ NFlag args = 0 ->
  parseFlags args g
  = (Exits 0, Parse args (declareFlags g),
     [EvPrintln "Obtain cookies from your browser stores";
      EvPrintln (newline +:+ "Use with the following flags:");
      EvPrintDefaults]).
Proof.
  intros Hu. unfold parseFlags, bind, get. simpl.
  assert (help (Parse args (declareFlags g)) || (NFlag args =? 0) = true) as ->.
  { destruct Hu as [->| ->]; [done|]. by rewrite orb_true_r. }
  done.
Qed.

Lemma parseFlags_checks args g :
  help (Parse args (declareFlags g)) = false -> NFlag args <> 0 ->
  let g' := Parse args (declareFlags g) in
  parseFlags args g
  = (Returns
       (if decide (domain g' = "") then Some errDomainRequired
        else if decide (curl g' = true /\ name g' <> "")
             then Some errMutuallyExclusive
             else None),
     g', []).
Proof.
  intros Hh Hn g'. unfold parseFlags, bind, get. simpl. fold g'.
  change (help g' = false) in Hh. rewrite Hh. apply Nat.eqb_neq in Hn. rewrite Hn. simpl.
  destruct (String.eqb_spec (domain g') "") as [Hd|Hd].
  - by rewrite decide_True.
  - rewrite (decide_False (P := domain g' = "")) by done.
    destruct (curl g'); simpl; [|done].
    destruct (String.eqb_spec (name g') "") as [Hnm|Hnm]; simpl.
    + rewrite decide_False; [done|]. by intros [_ ?].
    + by rewrite decide_True.
Qed.

(** C7, as amended.  When help is not requested and at least one flag is
    given, flag resolution fails with a configuration error when the
    domain is empty, and when curl is set together with a non-empty name.
    In both cases [run] returns the wrapped error with an empty trace:
    no store has been enumerated, read or closed, and nothing printed;
    the process exits with status 1. *)
Theorem config_error_before_any_store_access (host : list CookieStore) args :
  let g := Parse args (declareFlags initial) in
  help g = false -> NFlag args <> 0 ->
  domain g = "" \/ (curl g = true /\ name g <> "") ->
  exists e,
    ConfigError e
    /\ parseFlags args initial = (Returns (Some e), g, [])
    /\ run quote encodeValue host args initial
       = (Returns (Some (wrap "incorrect flag usage" e)), g, [])
    /\ main quote encodeValue host args = (1, []).
Proof.
  intros g Hh Hn Hbad.
  pose proof (parseFlags_checks args initial Hh Hn) as Hp. simpl in Hp.
  fold g in Hp.
  assert (exists e, ConfigError e
                    /\ parseFlags args initial = (Returns (Some e), g, []))
    as (e & He & Hpe).
  { rewrite Hp. case_decide as Hd.
    - exists errDomainRequired. split; [by left|done].
    - destruct Hbad as [?|Hcn]; [done|]. case_decide; [|done].
      exists errMutuallyExclusive. split; [by right|done]. }
  exists e. split_and!; [done..| |].
  - unfold run, bind. by rewrite Hpe.
  - unfold main, run, bind. by rewrite Hpe.
Qed.

(** ** The JSON encoder *)

Global Instance key_le_total {A} : Total (@json.key_le A).
Proof.
  intros a b. unfold json.key_le.
  destruct (String_as_OT.compare_spec a.1 b.1) as [Heq|Hlt|Hgt].
  - by left.
  - by left.
  - right. unfold String_as_OT.lt in Hgt. by rewrite Hgt.
Qed.

Lemma key_le_lt {A} (a b : string * A) :
  json.key_le a b -> a.1 <> b.1 -> String_as_OT.lt a.1 b.1.
Proof.
  unfold json.key_le. intros Hle Hne.
  by destruct (String_as_OT.compare_spec a.1 b.1).
Qed.

Global Instance key_le_trans {A} : Transitive (@json.key_le A).
Proof.
  intros a b c Hab Hbc.
  destruct (decide (a.1 = b.1)) as [Heq|Hne].
  { unfold json.key_le in *. by rewrite Heq. }
  destruct (decide (b.1 = c.1)) as [Heq'|Hne'].
  { unfold json.key_le in *. by rewrite <- Heq'. }
  pose proof (key_le_lt a b Hab Hne) as Hlt.
  pose proof (key_le_lt b c Hbc Hne') as Hlt'.
  assert (String_as_OT.lt a.1 c.1) as Hac by (by etransitivity).
  unfold json.key_le. unfold String_as_OT.lt in Hac. by rewrite Hac.
Qed.

Lemma sortedMembers_Permutation {A} (m : gmap string A) :
  json.sortedMembers m ≡ₚ map_to_list m.
Proof. apply merge_sort_Permutation. Qed.

Lemma elem_of_sortedMembers {A} (m : gmap string A) k v :
  (k, v) ∈ json.sortedMembers m <-> m !! k = Some v.
Proof. by rewrite sortedMembers_Permutation, elem_of_map_to_list. Qed.

Lemma NoDup_sortedMembers {A} (m : gmap string A) :
  NoDup (json.sortedMembers m).*1.
Proof. rewrite sortedMembers_Permutation. apply NoDup_fst_map_to_list. Qed.

Lemma elem_of_sortedMembers_keys {A} (m : gmap string A) k :
  k ∈ (json.sortedMembers m).*1 <-> is_Some (m !! k).
Proof.
  rewrite list_elem_of_fmap. split.
  - intros ([k' v] & -> & Hin). apply elem_of_sortedMembers in Hin. by eexists.
  - intros [v Hv]. exists (k, v). split; [done|]. by apply elem_of_sortedMembers.
Qed.

Lemma ascending_keys {A} (l : list (string * A)) :
  StronglySorted json.key_le l -> NoDup l.*1 ->
  StronglySorted String_as_OT.lt l.*1.
Proof.
  induction 1 as [|a l Hl IH Hall]; simpl; [constructor|].
  intros Hnd. apply NoDup_cons in Hnd as [Hnotin Hnd].
  constructor; [by apply IH|].
  apply Forall_fmap, Forall_forall. intros b Hb. simpl.
  apply key_le_lt.
  - by eapply Forall_forall in Hall.
  - intros Heq. apply Hnotin. rewrite Heq. apply list_elem_of_fmap. by exists b.
Qed.

(** The keys of a marshalled map come out strictly ascending. *)
Lemma sortedMembers_ascending {A} (m : gmap string A) :
  StronglySorted String_as_OT.lt (json.sortedMembers m).*1.
Proof.
  apply ascending_keys; [|apply NoDup_sortedMembers].
  apply StronglySorted_merge_sort; apply _.
Qed.

Lemma encodeMembers_string (l : list (string * string)) :
  json.encodeMembers (json.encodeString quote) l
  = inl ((fun kv => (kv.1, quote kv.2)) <$> l).
Proof.
  induction l as [|[k v] l IH]; simpl; [done|]. by rewrite IH.
Qed.

(** Marshalling a map of strings cannot fail. *)
Lemma MarshalMap_string (m : gmap string string) :
  json.MarshalMap quote (json.encodeString quote) m
  = inl (json.object quote
           ((fun kv => (kv.1, quote kv.2)) <$> json.sortedMembers m)).
Proof. unfold json.MarshalMap. by rewrite encodeMembers_string. Qed.

(** ** Maps keyed by cookie name *)

Lemma lastNamed_nil n (c : Cookie) : ~ lastNamed [] n c.
Proof. intros (pre & post & Heq & _). by destruct pre. Qed.

Lemma lastNamed_snoc (cookies : list Cookie) x n c :
  lastNamed (cookies ++ [x]) n c
  <-> (kooky.Name x = n /\ c = x) \/ (kooky.Name x <> n /\ lastNamed cookies n c).
Proof.
  split.
  - intros (pre & post & Heq & Hn & Hpost).
    destruct post as [|y post _] using rev_ind.
    + apply app_inj_tail in Heq as [_ ->]. by left.
    + rewrite app_comm_cons, app_assoc in Heq.
      apply app_inj_tail in Heq as [-> ->].
      apply Forall_app in Hpost as [Hpost Hy].
      rewrite Forall_singleton in Hy.
      right. split; [done|]. by exists pre, post.
  - intros [[Hn ->]|[Hne (pre & post & -> & Hn & Hpost)]].
    + exists cookies, []. by split_and!.
    + exists pre, (post ++ [x]). split_and!; [by rewrite <- app_assoc|done|].
      apply Forall_app. split; [done|]. by apply Forall_singleton.
Qed.

Lemma lookup_named {B} (val : Cookie -> B) (cookies : list Cookie) n v :
  foldl (fun m item => <[kooky.Name item := val item]> m) (∅ : gmap string B) cookies !! n = Some v
  <-> exists c, lastNamed cookies n c /\ val c = v.
Proof.
  revert v. induction cookies as [|x cookies IH] using rev_ind; intros v.
  - simpl. rewrite lookup_empty. split; [done|].
    intros (c & Hc & _). by apply lastNamed_nil in Hc.
  - rewrite foldl_snoc. destruct (decide (kooky.Name x = n)) as [Heq|Hne].
    + rewrite Heq, lookup_insert_eq. split.
      * intros [= <-]. exists x. split; [|done].
        apply lastNamed_snoc. by left.
      * intros (c & Hc & <-). apply lastNamed_snoc in Hc as [[_ ->]|[Hne _]]; done.
    + rewrite lookup_insert_ne by done. rewrite IH. split.
      * intros (c & Hc & Hv). exists c. split; [|done].
        apply lastNamed_snoc. by right.
      * intros (c & Hc & Hv). exists c. split; [|done].
        apply lastNamed_snoc in Hc as [[Heq _]|[_ Hc]]; done.
Qed.

Lemma foldl_insert_list_to_map {A B} (key : A -> string) (val : A -> B)
    (l : list A) :
  foldl (fun m x => <[key x := val x]> m) (∅ : gmap string B) l
  = list_to_map (rev ((fun x => (key x, val x)) <$> l)).
Proof.
  induction l as [|x l IH] using rev_ind; [done|].
  rewrite foldl_snoc, fmap_app, rev_app_distr. simpl. by rewrite IH.
Qed.

Lemma named_keys {B} (val : Cookie -> B) (cookies : list Cookie) n :
  is_Some (foldl (fun m item => <[kooky.Name item := val item]> m) (∅ : gmap string B) cookies !! n)
  <-> n ∈ kooky.Name <$> cookies.
Proof.
  rewrite foldl_insert_list_to_map.
  rewrite <- not_eq_None_Some, <- not_elem_of_list_to_map.
  assert ((rev ((fun x => (kooky.Name x, val x)) <$> cookies)).*1
          ≡ₚ kooky.Name <$> cookies) as ->.
  { rewrite <- (Permutation_rev _). by rewrite <- list_fmap_compose. }
  split; [|by intros ? ?]. intros Hnn.
  by destruct (decide (n ∈ kooky.Name <$> cookies)).
Qed.

(** One member per distinct name. *)
Lemma named_members {B} (val : Cookie -> B) (cookies : list Cookie) :
  (json.sortedMembers
     (foldl (fun m item => <[kooky.Name item := val item]> m) (∅ : gmap string B) cookies)).*1
  ≡ₚ remove_dups (kooky.Name <$> cookies).
Proof.
  apply NoDup_Permutation.
  - apply NoDup_sortedMembers.
  - apply NoDup_remove_dups.
  - intros n. by rewrite elem_of_sortedMembers_keys, named_keys, elem_of_remove_dups.
Qed.

(** ** Name/value JSON *)

Lemma serializeCookiesToJson_object (cookies : list Cookie) :
  serializeCookiesToJson quote cookies
  = (json.object quote
       ((fun kv => (kv.1, quote kv.2))
          <$> json.sortedMembers (buildCookiesMap cookies)),
     None).
Proof. unfold serializeCookiesToJson. by rewrite MarshalMap_string. Qed.

(** C5.  The name/value formatter cannot fail, and the object it writes
    has exactly one member per distinct cookie name of the sequence; the
    member of a name holds the value of the last record of that name. *)
Theorem serializeCookiesToJson_last_write_wins (cookies : list Cookie) :
  let members := json.sortedMembers (buildCookiesMap cookies) in
  serializeCookiesToJson quote cookies
  = (json.object quote ((fun kv => (kv.1, quote kv.2)) <$> members), None)
  /\ members.*1 ≡ₚ remove_dups (kooky.Name <$> cookies)
  /\ (forall n v,
        (n, v) ∈ members
        <-> exists c, lastNamed cookies n c /\ kooky.Value c = v).
Proof.
  intros members. split_and!.
  - apply serializeCookiesToJson_object.
  - apply (named_members kooky.Value).
  - intros n v. unfold members. rewrite elem_of_sortedMembers.
    apply (lookup_named kooky.Value).
Qed.

Lemma buildCookiesMap_Permutation (cookies1 cookies2 : list Cookie) :
  cookies1 ≡ₚ cookies2 -> NoDup (kooky.Name <$> cookies1) ->
  buildCookiesMap cookies1 = buildCookiesMap cookies2.
Proof.
  intros Hperm Hnd. unfold buildCookiesMap.
  rewrite !foldl_insert_list_to_map. apply list_to_map_proper.
  - rewrite <- Permutation_rev. by rewrite <- list_fmap_compose.
  - rewrite <- !Permutation_rev. by rewrite Hperm.
Qed.

Lemma concat_Permutation {A} (ls1 ls2 : list (list A)) :
  ls1 ≡ₚ ls2 -> concat ls1 ≡ₚ concat ls2.
Proof.
  induction 1 as [|l ls1 ls2 _ IH|l1 l2 ls|ls1 ls2 ls3 _ IH1 _ IH2]; simpl.
  - done.
  - by rewrite IH.
  - apply Permutation_app_swap_app.
  - by etransitivity.
Qed.

(** Enumerating the stores in another order permutes the aggregate. *)
Lemma returnedCookies_Permutation host1 host2 browser filters :
  host1 ≡ₚ host2 ->
  returnedCookies browser filters host1 ≡ₚ returnedCookies browser filters host2.
Proof.
  intros Hperm. unfold returnedCookies, reads, matching.
  apply concat_Permutation. by rewrite Hperm.
Qed.

(** C10.  Two sequences that are permutations of each other and whose
    cookie names are pairwise distinct give the same output string: the
    members of the object are written in strictly ascending order of
    their keys, whatever the order of the records.  In particular the
    output for the cookies returned by the stores does not depend on the
    order in which the stores are enumerated, as long as no two of those
    cookies share a name. *)
Theorem serializeCookiesToJson_order_independent (cookies1 cookies2 : list Cookie) :
  cookies1 ≡ₚ cookies2 -> NoDup (kooky.Name <$> cookies1) ->
  serializeCookiesToJson quote cookies1 = serializeCookiesToJson quote cookies2
  /\ (serializeCookiesToJson quote cookies1).1
     = json.object quote
         ((fun kv => (kv.1, quote kv.2))
            <$> json.sortedMembers (buildCookiesMap cookies1))
  /\ StronglySorted String_as_OT.lt
       (json.sortedMembers (buildCookiesMap cookies1)).*1
  /\ (forall host1 host2 browser filters,
        host1 ≡ₚ host2 ->
        returnedCookies browser filters host1 = cookies1 ->
        serializeCookiesToJson quote (returnedCookies browser filters host2)
        = serializeCookiesToJson quote cookies1).
Proof.
  intros Hperm Hnd. split_and!.
  - rewrite !serializeCookiesToJson_object.
    by rewrite (buildCookiesMap_Permutation cookies1 cookies2).
  - by rewrite serializeCookiesToJson_object.
  - apply sortedMembers_ascending.
  - intros host1 host2 browser filters Hhost <-.
    rewrite !serializeCookiesToJson_object.
    rewrite (buildCookiesMap_Permutation
               (returnedCookies browser filters host1)
               (returnedCookies browser filters host2));
      [done| |done].
    by apply returnedCookies_Permutation.
Qed.

(** ** Full-field JSON *)

Lemma foldl_fields_lookup (skip : bool) (fields : list (string * V)) f :
  foldl (fun (m : gmap string V) field =>
           if String.eqb field.1 "Container" && skip then m
           else <[field.1 := field.2]> m) ∅ fields !! f
  = if decide (f = "Container" /\ skip = true) then None
    else (list_to_map (rev fields) : gmap string V) !! f.
Proof.
  induction fields as [|[k v] fields IH] using rev_ind.
  - simpl. rewrite !lookup_empty. by case_decide.
  - rewrite foldl_snoc, rev_app_distr.
    change (rev [(k, v)] ++ rev fields) with ((k, v) :: rev fields).
    rewrite list_to_map_cons.
    change ((k, v).1) with k. change ((k, v).2) with v.
    destruct (String.eqb_spec k "Container") as [Hk|Hk]; destruct skip;
      cbn [andb].
    + rewrite IH. case_decide as Hd; [done|].
      rewrite lookup_insert_ne; [done|]. intros <-. by apply Hd.
    + destruct (decide (k = f)) as [<-|Hne].
      * rewrite !lookup_insert_eq. rewrite decide_False; [done|]. by intros [_ ?].
      * rewrite !lookup_insert_ne by done. exact IH.
    + destruct (decide (k = f)) as [<-|Hne].
      * rewrite !lookup_insert_eq. rewrite decide_False; [done|]. by intros [? _].
      * rewrite !lookup_insert_ne by done. exact IH.
    + destruct (decide (k = f)) as [<-|Hne].
      * rewrite !lookup_insert_eq. rewrite decide_False; [done|]. by intros [_ ?].
      * rewrite !lookup_insert_ne by done. exact IH.
Qed.

Lemma buildCookieMap_lookup browser (item : Cookie) f :
  buildCookieMap browser item !! f
  = if decide (f = "Container" /\ browser <> "firefox") then None
    else (list_to_map (rev (kooky.Fields item)) : gmap string V) !! f.
Proof.
  unfold buildCookieMap. rewrite foldl_fields_lookup.
  destruct (String.eqb_spec browser "firefox") as [Hb|Hb]; simpl.
  - rewrite !decide_False; [done| |]; by intros [_ ?].
  - destruct (decide (f = "Container")) as [Hf|Hf].
    + by rewrite !decide_True.
    + rewrite !decide_False; [done| |]; by intros [? _].
Qed.

Lemma buildCookieMap_keys browser (item : Cookie) f :
  f ∈ (json.sortedMembers (buildCookieMap browser item)).*1
  <-> f ∈ (kooky.Fields item).*1 /\ (f = "Container" -> browser = "firefox").
Proof.
  rewrite elem_of_sortedMembers_keys, buildCookieMap_lookup.
  assert (is_Some ((list_to_map (rev (kooky.Fields item)) : gmap string V) !! f)
          <-> f ∈ (kooky.Fields item).*1) as Hall.
  { rewrite <- not_eq_None_Some, <- not_elem_of_list_to_map.
    rewrite <- Permutation_rev. split; [|by intros ? ?].
    intros Hnn. by destruct (decide (f ∈ (kooky.Fields item).*1)). }
  case_decide as Hd.
  - split; [by intros [? ?]|]. intros [_ Hb]. destruct Hd as [Hf Hnb].
    by specialize (Hb Hf).
  - rewrite Hall. split; [|by intros [? _]].
    intros Hin. split; [done|]. intros Hf.
    destruct (decide (browser = "firefox")); [done|]. by destruct Hd.
Qed.

Lemma buildCookieMap_members browser (item : Cookie) f v :
  NoDup (kooky.Fields item).*1 ->
  (f, v) ∈ json.sortedMembers (buildCookieMap browser item)
  <-> (f, v) ∈ kooky.Fields item /\ (f = "Container" -> browser = "firefox").
Proof.
  intros Hnd. rewrite elem_of_sortedMembers, buildCookieMap_lookup.
  assert ((list_to_map (rev (kooky.Fields item)) : gmap string V) !! f = Some v
          <-> (f, v) ∈ kooky.Fields item) as Hall.
  { rewrite <- elem_of_list_to_map by (by rewrite <- Permutation_rev).
    by rewrite <- Permutation_rev. }
  case_decide as Hd.
  - split; [done|]. intros [_ Hb]. destruct Hd as [Hf Hnb].
    by specialize (Hb Hf).
  - rewrite Hall. split; [|by intros [? _]].
    intros Hin. split; [done|]. intros Hf.
    destruct (decide (browser = "firefox")); [done|]. by destruct Hd.
Qed.

Lemma encodeMembers_keys {A} (enc : A -> string + string)
    (l : list (string * A)) js :
  json.encodeMembers enc l = inl js -> js.*1 = l.*1.
Proof.
  revert js. induction l as [|[k v] l IH]; intros js; simpl.
  - by intros [= <-].
  - destruct (enc v); [|done].
    destruct (json.encodeMembers enc l) as [js'|]; [|done].
    intros [= <-]. rewrite !fmap_cons. f_equal. by apply IH.
Qed.

(** ** The store-error report *)

Lemma Itoa_inj n m : strconv.Itoa n = strconv.Itoa m -> n = m.
Proof.
  unfold strconv.Itoa. intros Heq.
  assert (Some (Nat.to_uint n) = Some (Nat.to_uint m)) as [= Hu].
  { by rewrite <- !NilEmpty.usu, Heq. }
  by rewrite <- (Unsigned.of_to n), <- (Unsigned.of_to m), Hu.
Qed.

Lemma rangeErrors_other errs : forall i (m : gmap string string) k,
  (forall j, j < length errs -> k <> strconv.Itoa (i + j + 1)) ->
  rangeErrors i errs m !! k = m !! k.
Proof.
  induction errs as [|v rest IH]; intros i m k Hk; simpl; [done|].
  rewrite IH.
  - apply lookup_insert_ne. intros Heq.
    apply (Hk 0); [simpl; lia|]. by rewrite Nat.add_0_r.
  - intros j Hj. replace (S i + j + 1) with (i + S j + 1) by lia.
    apply Hk. simpl. lia.
Qed.

Lemma rangeErrors_at errs : forall i (m : gmap string string) j e,
  errs !! j = Some e ->
  rangeErrors i errs m !! strconv.Itoa (i + j + 1) = Some e.
Proof.
  induction errs as [|v rest IH]; intros i m j e Hj; [done|].
  destruct j as [|j]; simpl in *.
  - injection Hj as ->. rewrite rangeErrors_other.
    + rewrite Nat.add_0_r. apply lookup_insert_eq.
    + intros j _ Heq. apply Itoa_inj in Heq. lia.
  - replace (i + S j + 1) with (S i + j + 1) by lia. by apply IH.
Qed.

Lemma rangeErrors_from errs : forall i (m : gmap string string) k e,
  rangeErrors i errs m !! k = Some e ->
  (exists j, k = strconv.Itoa (i + j + 1) /\ errs !! j = Some e)
  \/ m !! k = Some e.
Proof.
  induction errs as [|v rest IH]; intros i m k e Hk; simpl in *; [by right|].
  apply IH in Hk as [(j & -> & Hj)|Hk].
  - left. exists (S j). split; [f_equal; lia|done].
  - destruct (decide (strconv.Itoa (i + 1) = k)) as [<-|Hne].
    + rewrite lookup_insert_eq in Hk. injection Hk as ->.
      left. exists 0. split; [by rewrite Nat.add_0_r|done].
    + rewrite lookup_insert_ne in Hk by done. by right.
Qed.

Lemma rangeErrors_size errs : forall i (m : gmap string string),
  (forall j, j < length errs -> m !! strconv.Itoa (i + j + 1) = None) ->
  size (rangeErrors i errs m) = length errs + size m.
Proof.
  induction errs as [|v rest IH]; intros i m Hfresh; simpl; [done|].
  rewrite IH.
  - rewrite map_size_insert_None; [lia|].
    specialize (Hfresh 0). rewrite Nat.add_0_r in Hfresh. apply Hfresh.
    simpl. lia.
  - intros j Hj. rewrite lookup_insert_ne.
    + replace (S i + j + 1) with (i + S j + 1) by lia. apply Hfresh. simpl. lia.
    + intros Heq. apply Itoa_inj in Heq. lia.
Qed.

(** The map built by [formatStoreErrorsAsJson]: the error at position
    [i] is found under the decimal rendering of [i + 1], and there is
    nothing else in the map. *)
Lemma jsonErrors_map (errs : list string) :
  let jsonErrors := rangeErrors 0 errs ∅ in
  (forall i e, errs !! i = Some e <-> jsonErrors !! strconv.Itoa (i + 1) = Some e)
  /\ (forall k e, jsonErrors !! k = Some e ->
        exists i, k = strconv.Itoa (i + 1) /\ errs !! i = Some e)
  /\ size jsonErrors = length errs.
Proof.
  intros jsonErrors. split_and!.
  - intros i e. split.
    + intros Hi. by apply (rangeErrors_at errs 0 ∅ i e).
    + intros Hk. apply rangeErrors_from in Hk as [(j & Heq & Hj)|Hk]; [|done].
      apply Itoa_inj in Heq. simpl in Heq.
      by replace i with j by lia.
  - intros k e Hk. apply rangeErrors_from in Hk as [(j & Heq & Hj)|Hk]; [|done].
    by exists j.
  - unfold jsonErrors. rewrite rangeErrors_size; [by rewrite map_size_empty|].
    intros j _. apply lookup_empty.
Qed.

Lemma formatStoreErrorsAsJson_object g :
  formatStoreErrorsAsJson quote g
  = (Returns
       (json.object quote
          ((fun kv => (kv.1, quote kv.2))
             <$> json.sortedMembers (rangeErrors 0 (cookieStoreErrors g) ∅)),
        None),
     g, []).
Proof.
  unfold formatStoreErrorsAsJson, bind, get, ret. simpl.
  by rewrite MarshalMap_string.
Qed.

(** ** run *)

Lemma parseFlags_returns args g err g0 t0 :
  parseFlags args g = (Returns err, g0, t0) ->
  g0 = Parse args (declareFlags g) /\ t0 = [].
Proof.
  destruct (help (Parse args (declareFlags g))) eqn:Hh.
  { rewrite parseFlags_usage by (by left). done. }
  destruct (decide (NFlag args = 0)) as [Hn|Hn].
  { rewrite parseFlags_usage by (by right). done. }
  rewrite (parseFlags_checks args g Hh Hn). by intros [= _ <- <-].
Qed.

Lemma getCookies_globals host browser domain g :
  exists errs,
    (getCookies host browser domain g).1.2 = set_cookieStoreErrors errs g.
Proof.
  unfold getCookies.
  destruct (rangeStores _ _ _ _ _ _) as [p fr]. exists (storeErrors fr).
  destruct p; [done|]. by destruct (is_nil _).
Qed.

Lemma stdout_app t1 t2 : stdout (t1 ++ t2) = stdout t1 ++ stdout t2.
Proof. apply omap_app. Qed.

Lemma stdout_reads evs : Forall isRead evs -> stdout evs = [].
Proof.
  induction 1 as [|e evs He _ IH]; [done|]. by destruct e.
Qed.

Lemma stdout_closes (l : list nat) : stdout (EvClose <$> l) = [].
Proof. by induction l. Qed.

(** [getCookies] writes nothing to standard output. *)
Lemma getCookies_stdout host browser domain g :
  stdout (getCookies host browser domain g).2 = [].
Proof.
  destruct (getCookies_trace host browser domain g) as (evs & Hevs & ->).
  change (EvFindAllCookieStores :: ?l) with ([EvFindAllCookieStores] ++ l).
  by rewrite !stdout_app, (stdout_reads evs), stdout_closes.
Qed.

(** [printResult] neither reads nor writes [cookieStoreErrors]. *)
Lemma printResult_cookieStoreErrors (cookies : list Cookie) g errs :
  printResult quote encodeValue cookies (set_cookieStoreErrors errs g)
  = ((printResult quote encodeValue cookies g).1.1,
     set_cookieStoreErrors errs g,
     (printResult quote encodeValue cookies g).2).
Proof.
  unfold printResult, bind, get, ret, Println, emit. simpl.
  destruct (negb (String.eqb (name g) "")).
  { by destruct (getCookieValue cookies (name g)) as [v [e|]]. }
  destruct (curl g); [done|].
  destruct (fullCookieInfo g).
  - unfold serializeFullCookieInfoToJson, bind, get, ret. simpl.
    by destruct (json.MarshalMap _ _ _).
  - by destruct (serializeCookiesToJson quote cookies) as [v [e|]].
Qed.

Lemma printResult_globals (cookies : list Cookie) g :
  (printResult quote encodeValue cookies g).1.2 = g.
Proof.
  unfold printResult, bind, get, ret, Println, emit. simpl.
  destruct (negb (String.eqb (name g) "")).
  { by destruct (getCookieValue cookies (name g)) as [v [e|]]. }
  destruct (curl g); [done|].
  destruct (fullCookieInfo g).
  - unfold serializeFullCookieInfoToJson, bind, get, ret. simpl.
    by destruct (json.MarshalMap _ _ _).
  - by destruct (serializeCookiesToJson quote cookies) as [v [e|]].
Qed.

Lemma reportStoreErrors_debug g :
  reportStoreErrors quote g
  = (Returns None, g,
     if debug g
     then [EvPrintln
             (json.object quote
                ((fun kv => (kv.1, quote kv.2))
                   <$> json.sortedMembers (rangeErrors 0 (cookieStoreErrors g) ∅)))]
     else []).
Proof.
  unfold reportStoreErrors, bind at 1. unfold get at 1.
  destruct (debug g); [|done].
  unfold bind at 1. rewrite formatStoreErrorsAsJson_object.
  unfold bind, Println, emit, ret. done.
Qed.

Lemma main_exitStatus (host : list CookieStore) args :
  (main quote encodeValue host args).1
  = exitStatus (run quote encodeValue host args initial).1.1.
Proof.
  unfold main.
  by destruct (run quote encodeValue host args initial) as [[[[e|]|v|c] g] t].
Qed.

(** C9, as amended.  With the debug flag set, the flags accepted and the
    aggregation successful, the recorded store errors are written as one JSON object whose keys are
    the positions of the errors, counted from 1 and rendered in decimal,
    and whose values are the error texts.  That line is the first line on
    standard output; the output of the selected formatter follows.  The
    exit status of the process is the one the formatter gives, and it is
    the same whatever the list of store errors holds when the debug block
    and the formatter run. *)
Theorem store_errors_report host args g0 t0 cookies g1 t1 :
  parseFlags args initial = (Returns None, g0, t0) ->
  debug g0 = true ->
  getCookies host (browser g0) (domain g0) g0 = (Returns (cookies, None), g1, t1) ->
  let jsonErrors := rangeErrors 0 (cookieStoreErrors g1) ∅ in
  let line :=
    json.object quote
      ((fun kv => (kv.1, quote kv.2)) <$> json.sortedMembers jsonErrors) in
  (forall i e,
     cookieStoreErrors g1 !! i = Some e
     <-> jsonErrors !! strconv.Itoa (i + 1) = Some e)
  /\ size jsonErrors = length (cookieStoreErrors g1)
  /\ exists o t2,
       printResult quote encodeValue (elems cookies) g1 = (o, g1, t2)
       /\ run quote encodeValue host args initial
          = (o, g1, t0 ++ t1 ++ EvPrintln line :: t2)
       /\ stdout (t0 ++ t1 ++ EvPrintln line :: t2) = line :: stdout t2
       /\ (main quote encodeValue host args).1 = exitStatus o
       /\ forall errs,
            exitStatus
              (reportAndPrint quote encodeValue cookies
                 (set_cookieStoreErrors errs g1)).1.1
            = exitStatus o.
Proof.
  intros Hp Hdebug Hg jsonErrors line.
  destruct (jsonErrors_map (cookieStoreErrors g1)) as (Hat & _ & Hsize).
  split; [exact Hat|]. split; [exact Hsize|].
  pose proof (printResult_globals (elems cookies) g1) as Hpg.
  destruct (printResult quote encodeValue (elems cookies) g1)
    as [[o g2] t2] eqn:Hprint.
  simpl in Hpg. subst g2.
  exists o, t2. split; [done|].
  destruct (parseFlags_returns _ _ _ _ _ Hp) as [Hg0 ->].
  destruct (getCookies_globals host (browser g0) (domain g0) g0) as [errs Hg1].
  rewrite Hg in Hg1. simpl in Hg1.
  assert (debug g1 = true) as Hdebug1 by (by rewrite Hg1).
  assert (run quote encodeValue host args initial
          = (o, g1, [] ++ t1 ++ EvPrintln line :: t2)) as Hrun.
  { unfold run, bind at 1. rewrite Hp.
    unfold bind at 1. unfold get at 1.
    unfold bind at 1. rewrite Hg.
    unfold reportAndPrint, bind. rewrite reportStoreErrors_debug, Hdebug1, Hprint.
    done. }
  split_and!.
  - exact Hrun.
  - pose proof (getCookies_stdout host (browser g0) (domain g0) g0) as Hout.
    rewrite Hg in Hout. simpl in Hout.
    rewrite app_nil_l, stdout_app, Hout. done.
  - by rewrite main_exitStatus, Hrun.
  - intros errs'. unfold reportAndPrint, bind.
    rewrite reportStoreErrors_debug, printResult_cookieStoreErrors, Hprint.
    done.
Qed.

(** ** More on the loop of getCookies *)

Lemma rangeStores_readEvents browser domain se host : forall i fr,
  events (rangeStores browser domain se i host fr).2
  = events fr ++ readEvents browser (buildFilters se domain) i host.
Proof.
  induction host as [|s rest IH]; intros i fr; simpl.
  - by rewrite app_nil_r.
  - rewrite eqb_browser. case_decide.
    + destruct (kooky.ReadCookies s _) as [cs err|v]; simpl; [|done].
      rewrite IH. destruct err; simpl; by rewrite <- app_assoc.
    + by rewrite IH.
Qed.

Lemma rangeStores_returns_iff browser domain se host : forall i fr,
  (rangeStores browser domain se i host fr).1 = None
  <-> Forall returned (reads browser (buildFilters se domain) host).
Proof.
  unfold reads, matching.
  induction host as [|s rest IH]; intros i fr; simpl; [done|].
  rewrite filter_cons, eqb_browser. case_decide.
  - rewrite fmap_cons, Forall_cons.
    destruct (kooky.ReadCookies s _) as [cs err|v]; simpl.
    + rewrite IH. split; [by intros ?|by intros [_ ?]].
    + split; [done|by intros [[] _]].
  - apply IH.
Qed.

(** The trace of a call of [getCookies], event by event. *)
Lemma getCookies_events host browser domain g :
  (getCookies host browser domain g).2
  = EvFindAllCookieStores
      :: readEvents browser (buildFilters (showExpired g) domain) 0 host
      ++ (EvClose <$> rev (seq 0 (reached browser
                                    (buildFilters (showExpired g) domain) host))).
Proof.
  unfold getCookies.
  pose proof (rangeStores_deferred browser domain (showExpired g) host 0
    {| cookies := nil_slice; storeErrors := cookieStoreErrors g;
       deferred := []; events := [EvFindAllCookieStores] |}) as Hd.
  pose proof (rangeStores_readEvents browser domain (showExpired g) host 0
    {| cookies := nil_slice; storeErrors := cookieStoreErrors g;
       deferred := []; events := [EvFindAllCookieStores] |}) as He.
  destruct (rangeStores _ _ _ _ _ _) as [p fr']. simpl in *.
  rewrite app_nil_r in Hd.
  assert (events fr' ++ (EvClose <$> deferred fr')
          = EvFindAllCookieStores
              :: readEvents browser (buildFilters (showExpired g) domain) 0 host
              ++ (EvClose <$> rev (seq 0 (reached browser
                    (buildFilters (showExpired g) domain) host))))
    as Ht by (by rewrite He, Hd).
  destruct p; [|destruct (is_nil _)]; simpl; done.
Qed.

Lemma elem_of_readEvents browser filters host : forall i j filters',
  EvReadCookies j filters' ∈ readEvents browser filters i host ->
  filters' = filters /\ i <= j
  /\ exists s, host !! (j - i) = Some s /\ kooky.Browser s = browser.
Proof.
  induction host as [|s rest IH]; intros i j filters'; simpl.
  - intros Hin. by apply elem_of_nil in Hin.
  - assert (forall l : list event,
      (EvReadCookies j filters' ∈ l ->
         filters' = filters /\ S i <= j
         /\ exists s', rest !! (j - S i) = Some s' /\ kooky.Browser s' = browser) ->
      EvReadCookies j filters' ∈ l ->
      filters' = filters /\ i <= j
      /\ exists s', (s :: rest) !! (j - i) = Some s' /\ kooky.Browser s' = browser)
      as Hshift.
    { intros l Hl Hin. destruct (Hl Hin) as (-> & Hle & s' & Hs' & Hb).
      split_and!; [done|lia|]. exists s'. split; [|done].
      by replace (j - i) with (S (j - S i)) by lia. }
    case_decide as Hb.
    + rewrite elem_of_cons. intros [[= -> ->]|Hin].
      * split_and!; [done|lia|]. exists s. by rewrite Nat.sub_diag.
      * destruct (kooky.ReadCookies s filters).
        -- by apply (Hshift _ (IH (S i) j filters')).
        -- by apply elem_of_nil in Hin.
    + apply Hshift, IH.
Qed.

Lemma NoDup_readEvents browser filters host : forall i,
  NoDup (readEvents browser filters i host).
Proof.
  induction host as [|s rest IH]; intros i; simpl; [constructor|].
  case_decide; [|apply IH].
  apply NoDup_cons. split.
  - destruct (kooky.ReadCookies s filters);
      [|intros Hin; by apply elem_of_nil in Hin].
    intros Hin. apply elem_of_readEvents in Hin as (_ & Hle & _). lia.
  - destruct (kooky.ReadCookies s filters); [apply IH|constructor].
Qed.

Lemma readEvents_complete browser filters host : forall i k s,
  Forall returned (reads browser filters host) ->
  host !! k = Some s -> kooky.Browser s = browser ->
  EvReadCookies (i + k) filters ∈ readEvents browser filters i host.
Proof.
  unfold reads, matching.
  induction host as [|s' rest IH]; intros i k s Hall Hk Hb; [done|].
  simpl. rewrite filter_cons in Hall.
  destruct k as [|k]; simpl in Hk.
  - injection Hk as ->. rewrite decide_True by done.
    rewrite Nat.add_0_r. apply elem_of_cons. by left.
  - replace (i + S k) with (S i + k) by lia.
    case_decide.
    + rewrite fmap_cons in Hall. apply Forall_cons in Hall as [Hs' Hrest].
      destruct (kooky.ReadCookies s' filters); [|done].
      apply elem_of_cons. right. by eapply IH.
    + by eapply IH.
Qed.

Lemma readEvents_isRead browser filters host : forall i,
  Forall isRead (readEvents browser filters i host).
Proof.
  induction host as [|s rest IH]; intros i; simpl; [constructor|].
  case_decide; [|apply IH].
  constructor; [done|].
  destruct (kooky.ReadCookies s filters); [apply IH|constructor].
Qed.

Lemma elem_of_getCookies_read host browser domain g j filters' :
  EvReadCookies j filters' ∈ (getCookies host browser domain g).2
  <-> EvReadCookies j filters'
        ∈ readEvents browser (buildFilters (showExpired g) domain) 0 host.
Proof.
  rewrite getCookies_events, elem_of_cons, elem_of_app, list_elem_of_fmap.
  split.
  - by intros [Heq|[Hin|(k & Heq & _)]].
  - intros Hin. right. by left.
Qed.

(** X1.  [getCookies] reads the stores of the requested browser and no
    other: every read in its trace is issued to an enumerated store whose
    browser is the requested one, with the filter list built from the
    expired flag and the domain (the validity filter first unless expired
    cookies are wanted, the domain filter always), no store is read
    twice, and when the reads return every store of the requested browser
    is read. *)
Theorem getCookies_reads_matching_stores_only host browser domain g :
  let filters := buildFilters (showExpired g) domain in
  let t := (getCookies host browser domain g).2 in
  (forall j filters',
     EvReadCookies j filters' ∈ t ->
     filters' = filters
     /\ exists s, host !! j = Some s /\ kooky.Browser s = browser)
  /\ (filters = if showExpired g then [kooky.DomainContains domain]
                else [kooky.Valid; kooky.DomainContains domain])
  /\ (forall j, count_occ event_eq_dec t (EvReadCookies j filters) <= 1)
  /\ (Forall returned (reads browser filters host) ->
      forall j s, host !! j = Some s -> kooky.Browser s = browser ->
                  EvReadCookies j filters ∈ t).
Proof.
  intros filters t. subst t. split_and!.
  - intros j filters' Hin. apply elem_of_getCookies_read in Hin.
    apply elem_of_readEvents in Hin as (-> & _ & s & Hs & Hb).
    rewrite Nat.sub_0_r in Hs. split; [done|]. by exists s.
  - unfold filters, buildFilters. by destruct (showExpired g).
  - intros j. rewrite getCookies_events. fold filters.
    change (EvFindAllCookieStores :: ?l) with ([EvFindAllCookieStores] ++ l).
    rewrite !count_occ_app.
    assert (count_occ event_eq_dec [EvFindAllCookieStores]
              (EvReadCookies j filters) = 0) as -> by done.
    assert (count_occ event_eq_dec
              (EvClose <$> rev (seq 0 (reached browser filters host)))
              (EvReadCookies j filters) = 0) as ->.
    { apply count_occ_not_In. rewrite <- list_elem_of_In, list_elem_of_fmap.
      by intros (? & ? & _). }
    pose proof (NoDup_readEvents browser filters host 0) as Hnd.
    apply NoDup_ListNoDup in Hnd.
    rewrite (NoDup_count_occ event_eq_dec) in Hnd.
    specialize (Hnd (EvReadCookies j filters)). lia.
  - intros Hall j s Hj Hb. apply elem_of_getCookies_read.
    by apply (readEvents_complete browser filters host 0 j s).
Qed.

(** X2.  In a call of [getCookies] the enumeration comes first, then the
    reads, and only then the closes, which run in the reverse of the
    enumeration order: no store is closed before the last read has been
    made, and the stores closed are the first [k] of the enumeration,
    with [k] the whole length when the reads return. *)
Theorem getCookies_closes_last_in_first_out host browser domain g :
  let filters := buildFilters (showExpired g) domain in
  exists rs k,
    (getCookies host browser domain g).2
    = EvFindAllCookieStores :: rs ++ (EvClose <$> rev (seq 0 k))
    /\ Forall isRead rs
    /\ k <= length host
    /\ (Forall returned (reads browser filters host) -> k = length host).
Proof.
  intros filters.
  exists (readEvents browser filters 0 host), (reached browser filters host).
  split_and!.
  - apply getCookies_events.
  - apply readEvents_isRead.
  - clear. induction host as [|s rest IH]; simpl; [lia|].
    case_decide; [destruct (kooky.ReadCookies s filters)|]; lia.
  - apply reached_returned.
Qed.

Lemma rangeStores_app browser domain se pre rest : forall i fr,
  rangeStores browser domain se i (pre ++ rest) fr
  = match rangeStores browser domain se i pre fr with
    | (None, fr') => rangeStores browser domain se (i + length pre) rest fr'
    | (Some v, fr') => (Some v, fr')
    end.
Proof.
  induction pre as [|s pre IH]; intros i fr; simpl.
  - by rewrite Nat.add_0_r.
  - rewrite eqb_browser. case_decide.
    + destruct (kooky.ReadCookies s _) as [cs err|v]; [|done].
      rewrite IH. by replace (S i + length pre) with (i + S (length pre)) by lia.
    + rewrite IH. by replace (S i + length pre) with (i + S (length pre)) by lia.
Qed.

Lemma readEvents_app browser filters pre rest : forall i,
  Forall returned (reads browser filters pre) ->
  readEvents browser filters i (pre ++ rest)
  = readEvents browser filters i pre
    ++ readEvents browser filters (i + length pre) rest.
Proof.
  unfold reads, matching.
  induction pre as [|s pre IH]; intros i Hall; simpl.
  - by rewrite Nat.add_0_r.
  - rewrite filter_cons in Hall.
    replace (i + S (length pre)) with (S i + length pre) by lia.
    case_decide.
    + rewrite fmap_cons in Hall. apply Forall_cons in Hall as [Hs Hrest].
      destruct (kooky.ReadCookies s filters); [|done].
      simpl. by rewrite IH.
    + by rewrite IH.
Qed.

Lemma matching_none host browser :
  Forall (fun s : CookieStore => kooky.Browser s <> browser) host ->
  matching browser host = [].
Proof.
  unfold matching. induction 1 as [|s rest Hs _ IH]; [done|].
  rewrite filter_cons. by rewrite decide_False.
Qed.

Lemma readEvents_none host browser filters : forall i,
  Forall (fun s : CookieStore => kooky.Browser s <> browser) host ->
  readEvents browser filters i host = [].
Proof.
  intros i Hall. revert i.
  induction Hall as [|s rest Hs _ IH]; intros i; simpl; [done|].
  by rewrite decide_False.
Qed.

Lemma set_cookieStoreErrors_same g :
  set_cookieStoreErrors (cookieStoreErrors g) g = g.
Proof. by destruct g. Qed.

(** X3.  When the read of a store of the requested browser panics, the
    stores before it having been read, [getCookies] panics with the same
    value.  The error texts recorded up to then stay in
    [cookieStoreErrors]; the stores after the panicking one are neither
    read nor closed, and nothing is written to standard output. *)
Theorem getCookies_panic_leaves_later_stores_untouched
    host pre (s : CookieStore) post browser domain g v :
  let filters := buildFilters (showExpired g) domain in
  host = pre ++ s :: post ->
  Forall returned (reads browser filters pre) ->
  kooky.Browser s = browser ->
  kooky.ReadCookies s filters = kooky.ReadPanics v ->
  let res := getCookies host browser domain g in
  res.1 = (Panics v,
           set_cookieStoreErrors
             (cookieStoreErrors g ++ readErrors browser filters pre) g)
  /\ (forall i, length pre < i -> closes res.2 i = 0)
  /\ (forall i filters', length pre < i -> EvReadCookies i filters' ∉ res.2)
  /\ stdout res.2 = [].
Proof.
  intros filters -> Hpre Hb Hpanic res. subst res. split_and!.
  - unfold getCookies. rewrite rangeStores_app.
    destruct (rangeStores_returned browser domain (showExpired g) pre 0
      {| cookies := nil_slice; storeErrors := cookieStoreErrors g;
         deferred := []; events := [EvFindAllCookieStores] |} Hpre)
      as (Hp & _ & He).
    destruct (rangeStores browser domain (showExpired g) 0 pre _) as [p fr1].
    simpl in Hp, He. subst p. simpl.
    rewrite eqb_browser, decide_True by done.
    fold filters. rewrite Hpanic. simpl. by rewrite He.
  - intros i Hi. rewrite getCookies_closes. fold filters.
    rewrite reached_app by done. simpl.
    rewrite (decide_True (P := kooky.Browser s = browser)) by done.
    rewrite Hpanic. rewrite decide_False; [done|lia].
  - intros i filters' Hi Hin. apply elem_of_getCookies_read in Hin.
    fold filters in Hin. rewrite readEvents_app in Hin by done.
    apply elem_of_app in Hin as [Hin|Hin].
    + apply elem_of_readEvents in Hin as (_ & _ & s' & Hs' & _).
      apply lookup_lt_Some in Hs'. lia.
    + simpl in Hin. rewrite decide_True in Hin by done.
      rewrite Hpanic in Hin. apply list_elem_of_singleton in Hin.
      injection Hin as -> _. simpl in Hi. lia.
  - apply getCookies_stdout.
Qed.

(** X4.  When no enumerated store belongs to the requested browser,
    [getCookies] reads nothing and fails with the "no cookies" error, a
    nil slice and [cookieStoreErrors] as it was; every store is still
    closed, the last one first. *)
Theorem getCookies_without_matching_store host browser domain g :
  Forall (fun s : CookieStore => kooky.Browser s <> browser) host ->
  getCookies host browser domain g
  = (Returns (nil_slice, Some (errNoCookies browser domain)), g,
     EvFindAllCookieStores :: (EvClose <$> rev (seq 0 (length host)))).
Proof.
  intros Hnone.
  assert (reads browser (buildFilters (showExpired g) domain) host = []) as Hreads.
  { unfold reads. by rewrite matching_none. }
  assert (Forall returned (reads browser (buildFilters (showExpired g) domain) host))
    as Hall by (by rewrite Hreads).
  pose proof (getCookies_returned host browser domain g Hall) as H1.
  pose proof (getCookies_events host browser domain g) as H2.
  rewrite readEvents_none in H2 by done.
  rewrite reached_returned in H2 by done.
  unfold returnedCookies, readErrors in H1. rewrite Hreads in H1. simpl in H1.
  rewrite app_nil_r, set_cookieStoreErrors_same in H1.
  destruct (getCookies host browser domain g) as [[o g'] t]. simpl in *.
  by injection H1 as -> ->; subst t.
Qed.

(** X5.  What [getCookies] returns is either a nil error with a non-nil
    slice of at least one cookie, or the "no cookies" error with a nil
    slice: it never returns an empty slice with a nil error, nor cookies
    with an error. *)
Theorem getCookies_result_convention host browser domain g cookies err g' t :
  getCookies host browser domain g = (Returns (cookies, err), g', t) ->
  (err = None /\ exists c cs, cookies = mk_slice (c :: cs))
  \/ (err = Some (errNoCookies browser domain) /\ cookies = nil_slice).
Proof.
  intros Hres.
  assert (Forall returned (reads browser (buildFilters (showExpired g) domain) host))
    as Hall.
  { apply (rangeStores_returns_iff browser domain (showExpired g) host 0
      {| cookies := nil_slice; storeErrors := cookieStoreErrors g;
         deferred := []; events := [EvFindAllCookieStores] |}).
    unfold getCookies in Hres.
    destruct (rangeStores _ _ _ _ _ _) as [[v|] fr']; [done|done]. }
  pose proof (getCookies_returned host browser domain g Hall) as H1.
  rewrite Hres in H1. simpl in H1. injection H1 as H1 _.
  destruct (returnedCookies _ _ host) as [|c cs]; simpl in H1.
  - right. by injection H1 as -> ->.
  - left. injection H1 as -> ->. split; [done|]. by exists c, cs.
Qed.

(** ** More on flag resolution *)

Lemma usageRequested_dec args : usageRequested args \/ ~ usageRequested args.
Proof.
  unfold usageRequested.
  destruct (help (Parse args (declareFlags initial))); [by left; left|].
  destruct (decide (NFlag args = 0)); [by left; right|].
  right. by intros [?|?].
Qed.

Lemma parseFlags_accepted args :
  flagsAccepted args ->
  parseFlags args initial = (Returns None, Parse args (declareFlags initial), []).
Proof.
  intros (Hh & Hn & Hd & Hcn).
  rewrite (parseFlags_checks args initial Hh Hn). simpl.
  by rewrite !decide_False.
Qed.

Lemma cookieStoreErrors_Parse args : forall g,
  cookieStoreErrors (Parse args g) = cookieStoreErrors g.
Proof.
  unfold Parse. induction args as [|f args IH]; intros g; simpl; [done|].
  rewrite IH. by destruct f.
Qed.

(** X6.  Either help is set or [pflag.NFlag()] is 0, no flag having
    been set, and then the process prints the two usage lines and the
    flag table and exits with status 0 without touching a store,
    whatever else the command line says; or neither is the case, and
    then [parseFlags] returns, with or without an error, having printed
    nothing. *)
Theorem usage_or_flag_checks (host : list CookieStore) args :
  (usageRequested args
   /\ main quote encodeValue host args
      = (0, [EvPrintln "Obtain cookies from your browser stores";
             EvPrintln (newline +:+ "Use with the following flags:");
             EvPrintDefaults]))
  \/ (~ usageRequested args
      /\ exists err,
           parseFlags args initial
           = (Returns err, Parse args (declareFlags initial), [])).
Proof.
  destruct (usageRequested_dec args) as [Hu|Hu].
  - left. split; [done|].
    unfold main, run, bind at 1. by rewrite (parseFlags_usage args initial Hu).
  - right. split; [done|].
    assert (help (Parse args (declareFlags initial)) = false) as Hh.
    { destruct (help _) eqn:Hh; [|done]. destruct Hu. by left. }
    assert (NFlag args <> 0) as Hn by (intros ?; apply Hu; by right).
    rewrite (parseFlags_checks args initial Hh Hn). by eexists.
Qed.

(** X7.  [parseFlags] returns a nil error exactly for the command lines
    that do not ask for the usage text, name a non-empty domain and do
    not combine curl with a non-empty name.  Of the two checks the one on
    the domain comes first: with an empty domain the error is the one
    about the domain, also when curl and name are both set. *)
Theorem parseFlags_accepts_iff args :
  ((exists g t, parseFlags args initial = (Returns None, g, t))
   <-> flagsAccepted args)
  /\ (~ usageRequested args ->
      domain (Parse args (declareFlags initial)) = "" ->
      parseFlags args initial
      = (Returns (Some errDomainRequired), Parse args (declareFlags initial), [])).
Proof.
  split.
  - split; [|intros Hacc; rewrite (parseFlags_accepted args Hacc); by eexists _, _].
    intros (g & t & Hp).
    destruct (help (Parse args (declareFlags initial))) eqn:Hh.
    { rewrite parseFlags_usage in Hp by (by left). done. }
    destruct (decide (NFlag args = 0)) as [Hn|Hn].
    { rewrite parseFlags_usage in Hp by (by right). done. }
    rewrite (parseFlags_checks args initial Hh Hn) in Hp. simpl in Hp.
    unfold flagsAccepted. split_and!; [done|done| |].
    + intros Hd. by rewrite decide_True in Hp.
    + intros Hcn. case_decide; [done|]. by rewrite decide_True in Hp.
  - intros Hu Hd.
    assert (help (Parse args (declareFlags initial)) = false) as Hh.
    { destruct (help _) eqn:Hh; [|done]. destruct Hu. by left. }
    assert (NFlag args <> 0) as Hn by (intros ?; apply Hu; by right).
    rewrite (parseFlags_checks args initial Hh Hn). simpl.
    by rewrite decide_True.
Qed.

(** ** More on run *)

(** The selected formatter prints one line and returns nil, or prints
    nothing and returns an error; it leaves the globals alone. *)
Lemma printResult_output (cookies : list Cookie) g :
  exists o t,
    printResult quote encodeValue cookies g = (Returns o, g, t)
    /\ ((o = None /\ exists line, t = [EvPrintln line])
        \/ ((exists e, o = Some e) /\ t = [])).
Proof.
  unfold printResult, bind, get, ret, Println, emit. simpl.
  destruct (negb (String.eqb (name g) "")).
  { destruct (getCookieValue cookies (name g)) as [v [e|]]; eexists _, _;
      (split; [done|]); [right|left]; split; by eexists. }
  destruct (curl g).
  { eexists _, _. split; [done|]. left. split; by eexists. }
  destruct (fullCookieInfo g).
  - unfold serializeFullCookieInfoToJson, bind, get, ret. simpl.
    destruct (json.MarshalMap _ _ _); eexists _, _;
      (split; [done|]); [left|right]; split; by eexists.
  - destruct (serializeCookiesToJson quote cookies) as [v [e|]]; eexists _, _;
      (split; [done|]); [right|left]; split; by eexists.
Qed.

Lemma reportAndPrint_trace (cookies : slice Cookie) g :
  reportAndPrint quote encodeValue cookies g
  = ((printResult quote encodeValue (elems cookies) g).1.1, g,
     (if debug g then [EvPrintln (errorLine quote (cookieStoreErrors g))] else [])
       ++ (printResult quote encodeValue (elems cookies) g).2).
Proof.
  unfold reportAndPrint, bind. rewrite reportStoreErrors_debug.
  destruct (printResult_output (elems cookies) g) as (o & t & -> & _).
  by destruct (debug g).
Qed.

Lemma run_after_flags (host : list CookieStore) args g0 :
  parseFlags args initial = (Returns None, g0, []) ->
  run quote encodeValue host args initial
  = match getCookies host (browser g0) (domain g0) g0 with
    | (Returns (cookies, None), g1, t1) =>
        ((printResult quote encodeValue (elems cookies) g1).1.1, g1,
         t1 ++ (if debug g1
                then [EvPrintln (errorLine quote (cookieStoreErrors g1))]
                else [])
            ++ (printResult quote encodeValue (elems cookies) g1).2)
    | (Returns (_, Some e), g1, t1) =>
        (Returns (Some (wrap "failed to obtain cookies" e)), g1, t1)
    | (Panics v, g1, t1) => (Panics v, g1, t1)
    | (Exits c, g1, t1) => (Exits c, g1, t1)
    end.
Proof.
  intros Hp. unfold run, bind at 1. rewrite Hp.
  unfold bind at 1. unfold get at 1.
  unfold bind at 1.
  destruct (getCookies host (browser g0) (domain g0) g0)
    as [[[[cookies [e|]]|v|c] g1] t1]; simpl.
  - unfold ret. by rewrite app_nil_r.
  - by rewrite reportAndPrint_trace.
  - done.
  - done.
Qed.



Lemma main_trace (host : list CookieStore) args :
  (main quote encodeValue host args).2
  = (run quote encodeValue host args initial).2.
Proof.
  unfold main.
  by destruct (run quote encodeValue host args initial) as [[[[e|]|v|c] g] t].
Qed.

Lemma not_usageRequested args :
  ~ usageRequested args ->
  help (Parse args (declareFlags initial)) = false /\ NFlag args <> 0.
Proof.
  intros Hu. split.
  - destruct (help _) eqn:Hh; [|done]. destruct Hu. by left.
  - intros Hn. apply Hu. by right.
Qed.


Lemma getCookies_returned_full host browser domain g :
  let filters := buildFilters (showExpired g) domain in
  Forall returned (reads browser filters host) ->
  getCookies host browser domain g
  = (Returns
       (if decide (returnedCookies browser filters host = [])
        then (nil_slice, Some (errNoCookies browser domain))
        else (mk_slice (returnedCookies browser filters host), None)),
     set_cookieStoreErrors
       (cookieStoreErrors g ++ readErrors browser filters host) g,
     EvFindAllCookieStores
       :: readEvents browser filters 0 host
       ++ (EvClose <$> rev (seq 0 (length host)))).
Proof.
  intros filters Hall.
  pose proof (getCookies_returned host browser domain g Hall) as H1.
  pose proof (getCookies_events host browser domain g) as H2.
  fold filters in H1, H2. rewrite reached_returned in H2 by done.
  destruct (getCookies host browser domain g) as [[o g'] t]. simpl in *.
  by injection H1 as -> ->; subst t.
Qed.

(** X9.  When the flags are accepted and the reads return without a
    single cookie, the run is over after the aggregation: [run] returns
    the "no cookies" error behind "failed to obtain cookies", nothing is
    written to standard output, not even with the debug flag set, the
    process exits with status 1, and every store has been closed. *)
Theorem no_cookies_is_fatal (host : list CookieStore) args :
  flagsAccepted args ->
  let g0 := Parse args (declareFlags initial) in
  let filters := buildFilters (showExpired g0) (domain g0) in
  let t := EvFindAllCookieStores
             :: readEvents (browser g0) filters 0 host
             ++ (EvClose <$> rev (seq 0 (length host))) in
  Forall returned (reads (browser g0) filters host) ->
  returnedCookies (browser g0) filters host = [] ->
  run quote encodeValue host args initial
  = (Returns (Some (wrap "failed to obtain cookies"
                      (errNoCookies (browser g0) (domain g0)))),
     set_cookieStoreErrors (readErrors (browser g0) filters host) g0, t)
  /\ main quote encodeValue host args = (1, t)
  /\ stdout t = []
  /\ forall i, i < length host -> closes t i = 1.
Proof.
  intros Hacc g0 filters t Hall Hnil.
  pose proof (parseFlags_accepted args Hacc) as Hp. fold g0 in Hp.
  pose proof (getCookies_returned_full host (browser g0) (domain g0) g0 Hall) as Hg.
  fold filters in Hg. rewrite Hnil in Hg. simpl in Hg. fold t in Hg.
  assert (cookieStoreErrors g0 = []) as Herrs.
  { unfold g0. by rewrite cookieStoreErrors_Parse. }
  rewrite Herrs in Hg. simpl in Hg.
  assert (run quote encodeValue host args initial
          = (Returns (Some (wrap "failed to obtain cookies"
                              (errNoCookies (browser g0) (domain g0)))),
             set_cookieStoreErrors (readErrors (browser g0) filters host) g0, t))
    as Hrun.
  { rewrite (run_after_flags host args g0 Hp). by rewrite Hg. }
  pose proof (getCookies_stdout host (browser g0) (domain g0) g0) as Hout.
  rewrite Hg in Hout. simpl in Hout.
  split_and!; [exact Hrun| |exact Hout|].
  - unfold main. by rewrite Hrun.
  - intros i Hi.
    pose proof (getCookies_closes host (browser g0) (domain g0) g0 i) as Hc.
    rewrite Hg in Hc. simpl in Hc. rewrite Hc.
    fold filters. rewrite reached_returned by done. by rewrite decide_True.
Qed.

(** Once the flags are accepted and the reads have returned at least one
    cookie, the process ends as the selected formatter does on those
    cookies, and standard output holds the line of the errors of the
    failed reads, if the debug flag is set, followed by what the
    formatter prints. *)
Lemma main_after_aggregation (host : list CookieStore) args :
  flagsAccepted args ->
  let g0 := Parse args (declareFlags initial) in
  let filters := buildFilters (showExpired g0) (domain g0) in
  let cookies := returnedCookies (browser g0) filters host in
  Forall returned (reads (browser g0) filters host) ->
  cookies <> [] ->
  (main quote encodeValue host args).1
  = exitStatus (printResult quote encodeValue cookies g0).1.1
  /\ stdout (main quote encodeValue host args).2
     = (if debug g0
        then [errorLine quote (readErrors (browser g0) filters host)]
        else [])
       ++ stdout (printResult quote encodeValue cookies g0).2.
Proof.
  intros Hacc g0 filters cookies Hall Hne.
  pose proof (parseFlags_accepted args Hacc) as Hp. fold g0 in Hp.
  pose proof (getCookies_returned_full host (browser g0) (domain g0) g0 Hall) as Hg.
  fold filters in Hg. fold cookies in Hg.
  rewrite decide_False in Hg by done.
  assert (cookieStoreErrors g0 = []) as Herrs.
  { unfold g0. by rewrite cookieStoreErrors_Parse. }
  rewrite Herrs in Hg. simpl in Hg.
  pose proof (getCookies_stdout host (browser g0) (domain g0) g0) as Hout.
  rewrite Hg in Hout. simpl in Hout.
  rewrite main_exitStatus, main_trace, (run_after_flags host args g0 Hp), Hg.
  simpl. rewrite printResult_cookieStoreErrors. simpl.
  split; [done|].
  rewrite (stdout_app (readEvents _ _ _ _ ++ _)), Hout, stdout_app.
  simpl. by destruct (debug g0).
Qed.

(** X10.  In the default mode and in the curl mode the process cannot
    fail once the flags are accepted and the reads have returned a
    cookie: it exits with status 0, and the result line is the name/value
    object, or the curl command for the domain as given, of exactly the
    cookies the reads returned. *)
Theorem default_and_curl_modes_succeed (host : list CookieStore) args :
  flagsAccepted args ->
  let g0 := Parse args (declareFlags initial) in
  let filters := buildFilters (showExpired g0) (domain g0) in
  let cookies := returnedCookies (browser g0) filters host in
  Forall returned (reads (browser g0) filters host) ->
  cookies <> [] ->
  name g0 = "" ->
  curl g0 = true \/ fullCookieInfo g0 = false ->
  (main quote encodeValue host args).1 = 0
  /\ stdout (main quote encodeValue host args).2
     = (if debug g0
        then [errorLine quote (readErrors (browser g0) filters host)]
        else [])
       ++ [if curl g0 then createCurlCommand cookies (domain g0)
           else (serializeCookiesToJson quote cookies).1].
Proof.
  intros Hacc g0 filters cookies Hall Hne Hname Hmode.
  destruct (main_after_aggregation host args Hacc Hall Hne) as [-> ->].
  fold g0 filters cookies.
  assert (printResult quote encodeValue cookies g0
          = (Returns None, g0,
             [EvPrintln (if curl g0 then createCurlCommand cookies (domain g0)
                         else (serializeCookiesToJson quote cookies).1)]))
    as ->; [|done].
  unfold printResult, bind, get, ret, Println, emit. simpl.
  rewrite Hname. simpl.
  destruct (curl g0); [done|].
  destruct Hmode as [?| ->]; [done|].
  by rewrite serializeCookiesToJson_object.
Qed.

Lemma getCookieValue_ok_iff (cookies : list Cookie) n v :
  getCookieValue cookies n = (v, None)
  <-> exists c, firstNamed cookies n c /\ kooky.Value c = v /\ v <> "".
Proof.
  split.
  - destruct (firstNamed_or_absent cookies n)
      as [(c & pre & post & -> & Hn & Hpre)|Habs].
    + rewrite getCookieValue_skip by done. simpl.
      rewrite Hn, String.eqb_refl.
      destruct (String.eqb_spec (kooky.Value c) "") as [Hv|Hv]; [done|].
      intros [= <-]. exists c. split_and!; [|done..]. by exists pre, post.
    + rewrite <- (app_nil_r cookies). by rewrite getCookieValue_skip.
  - intros (c & (pre & post & -> & Hn & Hpre) & <- & Hv).
    rewrite getCookieValue_skip by done. simpl.
    rewrite Hn, String.eqb_refl.
    by destruct (String.eqb_spec (kooky.Value c) "").
Qed.

(** X11.  In the lookup mode, the flags accepted and the reads having
    returned a cookie, the process exits with status 0 exactly when the
    first returned cookie of the requested name has a non-empty value;
    that value is then the result line.  Otherwise it exits with status
    1. *)
Theorem lookup_mode_exit_status (host : list CookieStore) args :
  flagsAccepted args ->
  let g0 := Parse args (declareFlags initial) in
  let filters := buildFilters (showExpired g0) (domain g0) in
  let cookies := returnedCookies (browser g0) filters host in
  Forall returned (reads (browser g0) filters host) ->
  cookies <> [] ->
  name g0 <> "" ->
  ((main quote encodeValue host args).1 = 0
   <-> exists c, firstNamed cookies (name g0) c /\ kooky.Value c <> "")
  /\ ((main quote encodeValue host args).1 = 0
      \/ (main quote encodeValue host args).1 = 1)
  /\ (forall c,
        firstNamed cookies (name g0) c -> kooky.Value c <> "" ->
        stdout (main quote encodeValue host args).2
        = (if debug g0
           then [errorLine quote (readErrors (browser g0) filters host)]
           else [])
          ++ [kooky.Value c]).
Proof.
  intros Hacc g0 filters cookies Hall Hne Hname.
  destruct (main_after_aggregation host args Hacc Hall Hne) as [-> ->].
  fold g0 filters cookies.
  assert (printResult quote encodeValue cookies g0
          = match getCookieValue cookies (name g0) with
            | (_, Some e) =>
                (Returns (Some (wrap ("failed to get value for cookie "
                                        +:+ name g0) e)), g0, [])
            | (cookie_value, None) => (Returns None, g0, [EvPrintln cookie_value])
            end) as ->.
  { unfold printResult, bind, get, ret, Println, emit. simpl.
    destruct (String.eqb_spec (name g0) ""); [done|]. simpl.
    by destruct (getCookieValue cookies (name g0)) as [v [e|]]. }
  pose proof (getCookieValue_ok_iff cookies (name g0)) as Hok.
  destruct (getCookieValue cookies (name g0)) as [v [e|]]; simpl.
  - split_and!; [|by right|].
    + split; [done|]. intros (c & Hc & Hv).
      assert ((v, Some e) = (kooky.Value c, None)) as Habs; [|done].
      apply Hok. by exists c.
    + intros c Hc Hv.
      assert ((v, Some e) = (kooky.Value c, None)) as Habs; [|done].
      apply Hok. by exists c.
  - destruct (proj1 (Hok v) eq_refl) as (c & Hc & <- & Hv).
    split_and!; [|by left|].
    + split; [|done]. intros _. by exists c.
    + intros c' Hc' Hv'.
      assert ((kooky.Value c, None) = (kooky.Value c', @None string)) as [= ->];
        [|done].
      apply Hok. by exists c'.
Qed.

(** ** More on the formatters *)

Lemma named_unique (pre post : list Cookie) c :
  NoDup (kooky.Name <$> pre ++ c :: post) ->
  Forall (fun c' => kooky.Name c' <> kooky.Name c) pre
  /\ Forall (fun c' => kooky.Name c' <> kooky.Name c) post.
Proof.
  rewrite fmap_app, fmap_cons, NoDup_app, NoDup_cons.
  intros (_ & Hpre & Hnotin & _). split; apply Forall_forall; intros c' Hc' Heq.
  - apply (Hpre (kooky.Name c')).
    + apply list_elem_of_fmap. by exists c'.
    + rewrite Heq. apply elem_of_cons. by left.
  - apply Hnotin. rewrite <- Heq. apply list_elem_of_fmap. by exists c'.
Qed.

Lemma getCookieValue_absent_iff (cookies : list Cookie) n :
  getCookieValue cookies n = ("", Some errDoesNotExist)
  <-> Forall (fun c => kooky.Name c <> n) cookies.
Proof.
  split.
  - destruct (firstNamed_or_absent cookies n)
      as [(c & pre & post & -> & Hn & Hpre)|Habs]; [|done].
    rewrite getCookieValue_skip by done. simpl.
    rewrite Hn, String.eqb_refl.
    by destruct (String.eqb_spec (kooky.Value c) "").
  - intros Habs. rewrite <- (app_nil_r cookies).
    by rewrite getCookieValue_skip.
Qed.

(** X12.  Lookup and the name/value object agree on which names exist:
    the lookup reports a missing cookie exactly when the object has no
    member of that name.  When the cookie names are pairwise distinct
    they also agree on the values: the lookup returns a value exactly
    when the object holds that, non-empty, value under the name. *)
Theorem lookup_agrees_with_object (cookies : list Cookie) n :
  (getCookieValue cookies n = ("", Some errDoesNotExist)
   <-> buildCookiesMap cookies !! n = None)
  /\ (NoDup (kooky.Name <$> cookies) ->
      forall v, v <> "" ->
        getCookieValue cookies n = (v, None)
        <-> buildCookiesMap cookies !! n = Some v).
Proof.
  split.
  - rewrite getCookieValue_absent_iff, eq_None_not_Some.
    unfold buildCookiesMap. rewrite (named_keys kooky.Value).
    rewrite list_elem_of_fmap, Forall_forall. split.
    + intros Habs (c & -> & Hc). by apply (Habs c).
    + intros Hnone c Hc Hn. apply Hnone. by exists c.
  - intros Hnd v Hv. rewrite getCookieValue_ok_iff.
    unfold buildCookiesMap. rewrite (lookup_named kooky.Value). split.
    + intros (c & (pre & post & -> & Hn & Hpre) & Hval & _).
      exists c. split; [|done]. exists pre, post. split_and!; [done..|].
      rewrite <- Hn. by apply (named_unique pre post c).
    + intros (c & (pre & post & -> & Hn & Hpost) & Hval).
      exists c. split_and!; [|done..]. exists pre, post. split_and!; [done..|].
      rewrite <- Hn. by apply (named_unique pre post c).
Qed.

Lemma remove_dups_length {A} `{EqDecision A} (l : list A) :
  length (remove_dups l) <= length l
  /\ (length (remove_dups l) = length l <-> NoDup l).
Proof.
  induction l as [|x l [IHle IHeq]]; simpl.
  - split; [lia|]. split; [constructor|done].
  - destruct (decide_rel elem_of x l) as [Hin|Hnotin]; simpl.
    + split; [lia|]. split; [lia|].
      intros Hnd. apply NoDup_cons in Hnd as [? _]. done.
    + split; [lia|]. rewrite NoDup_cons. split.
      * intros Hlen. split; [done|]. apply IHeq. lia.
      * intros [_ Hnd]. f_equal. by apply IHeq.
Qed.

(** X13.  The name/value object never has more members than the
    sequence has records, and it has as many exactly when the cookie
    names are pairwise distinct: every record that shares its name with
    a later one is missing from the output.  The full-field object has
    the same keys in the same order. *)
Theorem object_drops_records_of_equal_name (cookies : list Cookie) browser :
  let members := json.sortedMembers (buildCookiesMap cookies) in
  length members = length (remove_dups (kooky.Name <$> cookies))
  /\ length members <= length cookies
  /\ (length members = length cookies <-> NoDup (kooky.Name <$> cookies))
  /\ (json.sortedMembers (buildFullCookiesMap browser cookies)).*1 = members.*1.
Proof.
  intros members.
  assert (length members = length (remove_dups (kooky.Name <$> cookies))) as Hlen.
  { rewrite <- (length_fmap fst members). apply Permutation_length.
    apply (named_members kooky.Value). }
  destruct (remove_dups_length (kooky.Name <$> cookies)) as [Hle Heq].
  rewrite length_fmap in Hle, Heq.
  split_and!; [done|lia|by rewrite Hlen|].
  apply (StronglySorted_unique_strong String_as_OT.lt).
  - intros k1 k2 _ _ H12 H21. exfalso.
    apply (irreflexivity String_as_OT.lt k1). by etransitivity.
  - apply sortedMembers_ascending.
  - apply sortedMembers_ascending.
  - unfold members, buildFullCookiesMap, buildCookiesMap.
    by rewrite (named_members (buildCookieMap browser)),
               (named_members kooky.Value).
Qed.

Lemma encodeMembers_ok_iff {A} (enc : A -> string + string)
    (l : list (string * A)) :
  (exists js, json.encodeMembers enc l = inl js)
  <-> Forall (fun kv => exists j, enc kv.2 = inl j) l.
Proof.
  induction l as [|[k v] l IH]; simpl.
  - split; [constructor|by eexists].
  - rewrite Forall_cons. simpl. rewrite <- IH.
    destruct (enc v) as [j|e].
    + destruct (json.encodeMembers enc l) as [js|e'].
      * split; [|by eexists]. intros _. split; by eexists.
      * split; [by intros [? ?]|]. by intros [_ [? ?]].
    + split; [by intros [? ?]|]. by intros [[? ?] _].
Qed.

Lemma MarshalMap_ok_iff {A} (enc : A -> string + string) (m : gmap string A) :
  (exists text, json.MarshalMap quote enc m = inl text)
  <-> forall k v, m !! k = Some v -> exists j, enc v = inl j.
Proof.
  unfold json.MarshalMap.
  assert ((exists js, json.encodeMembers enc (json.sortedMembers m) = inl js)
          <-> forall k v, m !! k = Some v -> exists j, enc v = inl j) as <-.
  { rewrite encodeMembers_ok_iff, Forall_forall. split.
    - intros Hall k v Hkv. apply (Hall (k, v)). by apply elem_of_sortedMembers.
    - intros Hall [k v] Hkv. apply (Hall k). by apply elem_of_sortedMembers. }
  destruct (json.encodeMembers enc (json.sortedMembers m)) as [js|e].
  - split; by eexists.
  - split; by intros [? ?].
Qed.

(** X14.  The full-field formatter returns a nil error exactly when
    every field value it has to write can be encoded: the values of the
    fields kept for the records that are the last of their name.  When
    it returns an error, the text it returns is empty.  It leaves the
    globals alone and prints nothing itself. *)
Theorem serializeFullCookieInfoToJson_fails_iff (cookies : list Cookie) g :
  exists text err,
    serializeFullCookieInfoToJson quote encodeValue cookies g
    = (Returns (text, err), g, [])
    /\ (err = None
        <-> forall n c f v,
              lastNamed cookies n c ->
              buildCookieMap (browser g) c !! f = Some v ->
              exists j, encodeValue v = inl j)
    /\ (err <> None -> text = "").
Proof.
  unfold serializeFullCookieInfoToJson, bind, get, ret. simpl.
  pose proof (MarshalMap_ok_iff (json.MarshalMap quote encodeValue)
                (buildFullCookiesMap (browser g) cookies)) as Hok.
  assert ((forall k fm, buildFullCookiesMap (browser g) cookies !! k = Some fm ->
             exists j, json.MarshalMap quote encodeValue fm = inl j)
          <-> forall n c f v,
                lastNamed cookies n c ->
                buildCookieMap (browser g) c !! f = Some v ->
                exists j, encodeValue v = inl j) as Hfields.
  { split.
    - intros Hall n c f v Hc Hf.
      assert (buildFullCookiesMap (browser g) cookies !! n
              = Some (buildCookieMap (browser g) c)) as Hn.
      { apply (lookup_named (buildCookieMap (browser g))). by exists c. }
      apply Hall in Hn.
      by apply (proj1 (MarshalMap_ok_iff encodeValue
                         (buildCookieMap (browser g) c)) Hn f).
    - intros Hall k fm Hk.
      apply (lookup_named (buildCookieMap (browser g))) in Hk as (c & Hc & <-).
      apply MarshalMap_ok_iff. intros f v Hf. by apply (Hall k c f v). }
  rewrite Hfields in Hok.
  destruct (json.MarshalMap quote (json.MarshalMap quote encodeValue) _)
    as [text|e]; eexists _, _; (split; [done|]).
  - split; [|done]. split; [|done]. intros _. apply Hok. by eexists.
  - split; [|done]. split; [done|]. intros Hall. apply Hok in Hall as [? ?]. done.
Qed.

(** ** More on whole runs *)

Lemma errorLine_nil : errorLine quote [] = "{}".
Proof.
  unfold errorLine. simpl. unfold json.sortedMembers.
  by rewrite map_to_list_empty.
Qed.

Lemma reads_succeeded browser filters host :
  Forall (fun r => exists cs, r = kooky.ReadReturns cs None)
         (reads browser filters host) ->
  Forall returned (reads browser filters host)
  /\ readErrors browser filters host = [].
Proof.
  unfold readErrors.
  induction 1 as [|r rs (cs & ->) _ [IH1 IH2]]; [by split|].
  split; [by constructor|]. rewrite fmap_cons. simpl. exact IH2.
Qed.

(** X15.  With the debug flag set, the line of store errors is printed
    also when there is no store error to report: when all reads
    succeeded, the first line on standard output is the empty object. *)
Theorem debug_line_without_store_errors (host : list CookieStore) args :
  flagsAccepted args ->
  let g0 := Parse args (declareFlags initial) in
  let filters := buildFilters (showExpired g0) (domain g0) in
  Forall (fun r => exists cs, r = kooky.ReadReturns cs None)
         (reads (browser g0) filters host) ->
  returnedCookies (browser g0) filters host <> [] ->
  debug g0 = true ->
  exists rest, stdout (main quote encodeValue host args).2 = "{}" :: rest.
Proof.
  intros Hacc g0 filters Hok Hne Hdebug.
  destruct (reads_succeeded _ _ _ Hok) as [Hall Herrs].
  destruct (main_after_aggregation host args Hacc Hall Hne) as [_ ->].
  fold g0 filters. rewrite Hdebug, Herrs, errorLine_nil. by eexists.
Qed.

Lemma browser_Parse args : forall g,
  (forall v, FlagBrowser v ∉ args) ->
  browser (Parse args g) = browser g.
Proof.
  unfold Parse. induction args as [|f args IH]; intros g Hno; simpl; [done|].
  rewrite IH.
  - destruct f; try done. destruct (Hno v). apply elem_of_cons. by left.
  - intros v Hin. apply (Hno v). apply elem_of_cons. by right.
Qed.

Lemma showExpired_Parse args : forall g,
  (forall v, FlagExpired v ∉ args) ->
  showExpired (Parse args g) = showExpired g.
Proof.
  unfold Parse. induction args as [|f args IH]; intros g Hno; simpl; [done|].
  rewrite IH.
  - destruct f; try done. destruct (Hno v). apply elem_of_cons. by left.
  - intros v Hin. apply (Hno v). apply elem_of_cons. by right.
Qed.

(** The events of a run that touch the stores are those of its call of
    [getCookies]. *)
Lemma run_store_events (host : list CookieStore) args g0 e :
  parseFlags args initial = (Returns None, g0, []) ->
  (forall line, e <> EvPrintln line) ->
  e ∈ (run quote encodeValue host args initial).2
  <-> e ∈ (getCookies host (browser g0) (domain g0) g0).2.
Proof.
  intros Hp Hnp. rewrite (run_after_flags host args g0 Hp).
  destruct (getCookies host (browser g0) (domain g0) g0)
    as [[[[cookies [err|]]|v|c] g1] t1]; simpl; [done| |done|done].
  rewrite !elem_of_app.
  destruct (printResult_output (elems cookies) g1)
    as (o & t & -> & [[_ [line ->]]|[_ ->]]); simpl.
  - split; [|by left]. intros [?|[Hd|Hl]]; [done| |].
    + destruct (debug g1); [|by apply elem_of_nil in Hd].
      apply list_elem_of_singleton in Hd. by destruct (Hnp _ Hd).
    + apply list_elem_of_singleton in Hl. by destruct (Hnp _ Hl).
  - split; [|by left]. intros [?|[Hd|Hl]]; [done| |by apply elem_of_nil in Hl].
    destruct (debug g1); [|by apply elem_of_nil in Hd].
    apply list_elem_of_singleton in Hd. by destruct (Hnp _ Hd).
Qed.

(** X16.  The defaults of the flags: on a command line that is accepted
    and sets neither the browser nor the expired flag, every read of the
    run goes to a chrome store and carries the validity filter followed
    by the filter on the given domain. *)
Theorem default_browser_and_filters (host : list CookieStore) args :
  flagsAccepted args ->
  (forall v, FlagBrowser v ∉ args) ->
  (forall v, FlagExpired v ∉ args) ->
  forall j filters,
    EvReadCookies j filters ∈ (main quote encodeValue host args).2 ->
    filters = [kooky.Valid;
               kooky.DomainContains (domain (Parse args (declareFlags initial)))]
    /\ exists s, host !! j = Some s /\ kooky.Browser s = "chrome".
Proof.
  intros Hacc Hnb Hne j filters Hin.
  pose proof (parseFlags_accepted args Hacc) as Hp.
  rewrite main_trace in Hin.
  apply (run_store_events host args _ _ Hp) in Hin; [|done].
  apply elem_of_getCookies_read in Hin.
  rewrite (browser_Parse args _ Hnb), (showExpired_Parse args _ Hne) in Hin.
  apply elem_of_readEvents in Hin as (-> & _ & s & Hs & Hb).
  rewrite Nat.sub_0_r in Hs. split; [done|]. by exists s.
Qed.

Lemma parseFlags_rejected args :
  ~ usageRequested args -> ~ flagsAccepted args ->
  exists e,
    parseFlags args initial
    = (Returns (Some e), Parse args (declareFlags initial), []).
Proof.
  intros Hu Hrej. destruct (not_usageRequested args Hu) as [Hh Hn].
  rewrite (parseFlags_checks args initial Hh Hn). simpl.
  case_decide as Hd; [by eexists|].
  case_decide as Hcn; [by eexists|].
  destruct Hrej. by split_and!.
Qed.

(** X17.  No store is left open by a run, and none is touched without
    need.  On a command line that is not accepted (usage text or flag
    error) the stores are not even enumerated and nothing is closed.  On
    an accepted one, when the reads return, every enumerated store is
    closed exactly once before the process ends, whichever formatter runs
    and whether or not it fails. *)
Theorem stores_closed_on_every_path (host : list CookieStore) args :
  let g0 := Parse args (declareFlags initial) in
  let t := (main quote encodeValue host args).2 in
  (~ flagsAccepted args ->
     (EvFindAllCookieStores ∉ t) /\ forall i, closes t i = 0)
  /\ (flagsAccepted args ->
      Forall returned
        (reads (browser g0) (buildFilters (showExpired g0) (domain g0)) host) ->
      forall i, i < length host -> closes t i = 1).
Proof.
  intros g0 t. subst t. rewrite main_trace. split.
  - intros Hrej. destruct (usageRequested_dec args) as [Hu|Hu].
    + assert ((run quote encodeValue host args initial).2
              = [EvPrintln "Obtain cookies from your browser stores";
                 EvPrintln (newline +:+ "Use with the following flags:");
                 EvPrintDefaults]) as ->.
      { unfold run, bind. by rewrite (parseFlags_usage args initial Hu). }
      split; [|done]. rewrite !elem_of_cons. intros [?|[?|[?|Hin]]]; try done.
      by apply elem_of_nil in Hin.
    + destruct (parseFlags_rejected args Hu Hrej) as [e Hp].
      assert ((run quote encodeValue host args initial).2 = []) as ->.
      { unfold run, bind. by rewrite Hp. }
      split; [|done]. intros Hin. by apply elem_of_nil in Hin.
  - intros Hacc Hall i Hi.
    pose proof (parseFlags_accepted args Hacc) as Hp. fold g0 in Hp.
    pose proof (getCookies_closes host (browser g0) (domain g0) g0 i) as Hc.
    rewrite reached_returned, decide_True in Hc by done.
    rewrite (run_after_flags host args g0 Hp).
    destruct (getCookies host (browser g0) (domain g0) g0)
      as [[[[cookies [err|]]|v|c] g1] t1]; simpl in *; [done| |done|done].
    rewrite !closes_app, Hc.
    destruct (printResult_output (elems cookies) g1)
      as (o & t & -> & [[_ [line ->]]|[_ ->]]); simpl;
      by destruct (debug g1).
Qed.

Lemma getCookies_error host browser domain g (cookies : slice Cookie) e :
  (getCookies host browser domain g).1.1 = Returns (cookies, Some e) ->
  e = errNoCookies browser domain.
Proof.
  unfold getCookies. destruct (rangeStores _ _ _ _ _ _) as [[v|] fr]; [done|].
  destruct (is_nil _); simpl; [|done]. by intros [= _ <-].
Qed.

Lemma getCookieValue_error (cookies : list Cookie) n v e :
  getCookieValue cookies n = (v, Some e) ->
  v = "" /\ (e = errEmptyValue \/ e = errDoesNotExist).
Proof.
  induction cookies as [|c rest IH]; simpl.
  - intros [= <- <-]. split; [done|by right].
  - destruct (String.eqb n (kooky.Name c)); [|done].
    destruct (String.eqb (kooky.Value c) ""); [|done].
    intros [= <- <-]. split; [done|by left].
Qed.

(** X18.  The errors [run] can return.  An error of [run] is the domain
    or the mutual-exclusion error behind "incorrect flag usage", the "no
    cookies" error behind "failed to obtain cookies", one of the two
    lookup errors behind "failed to get value for cookie" and the name,
    in the lookup mode only, or an encoding error behind "failed to
    create JSON", in the full-field mode only.  In particular the debug
    block never makes [run] fail, and neither do the curl mode and the
    name/value mode. *)
Theorem run_error_taxonomy (host : list CookieStore) args e :
  (run quote encodeValue host args initial).1.1 = Returns (Some e) ->
  let g0 := Parse args (declareFlags initial) in
  (e = wrap "incorrect flag usage" errDomainRequired /\ domain g0 = "")
  \/ (e = wrap "incorrect flag usage" errMutuallyExclusive
      /\ curl g0 = true /\ name g0 <> "")
  \/ e = wrap "failed to obtain cookies" (errNoCookies (browser g0) (domain g0))
  \/ (name g0 <> ""
      /\ (e = wrap ("failed to get value for cookie " +:+ name g0) errDoesNotExist
          \/ e = wrap ("failed to get value for cookie " +:+ name g0) errEmptyValue))
  \/ (name g0 = "" /\ curl g0 = false /\ fullCookieInfo g0 = true
      /\ exists e', e = wrap "failed to create JSON" e').
Proof.
  intros Hrun g0.
  destruct (usageRequested_dec args) as [Hu|Hu].
  { unfold run, bind in Hrun.
    by rewrite (parseFlags_usage args initial Hu) in Hrun. }
  destruct (not_usageRequested args Hu) as [Hh Hn].
  pose proof (parseFlags_checks args initial Hh Hn) as Hp. simpl in Hp.
  fold g0 in Hp.
  destruct (decide (domain g0 = "")) as [Hd|Hd].
  { unfold run, bind in Hrun. rewrite Hp in Hrun. simpl in Hrun.
    injection Hrun as <-. by left. }
  destruct (decide (curl g0 = true /\ name g0 <> "")) as [Hcn|Hcn].
  { unfold run, bind in Hrun. rewrite Hp in Hrun. simpl in Hrun.
    injection Hrun as <-. right. left. by destruct Hcn. }
  rewrite (run_after_flags host args g0 Hp) in Hrun.
  pose proof (getCookies_error host (browser g0) (domain g0) g0) as Herr.
  destruct (getCookies_globals host (browser g0) (domain g0) g0) as [errs Hg1].
  destruct (getCookies host (browser g0) (domain g0) g0)
    as [[[[cookies [e1|]]|v|c] g1] t1]; simpl in *; [| |done|done].
  { injection Hrun as <-. rewrite (Herr cookies e1 eq_refl). by do 2 right; left. }
  subst g1. rewrite printResult_cookieStoreErrors in Hrun. simpl in Hrun.
  unfold printResult, bind, get, ret, Println, emit in Hrun. simpl in Hrun.
  destruct (String.eqb_spec (name g0) "") as [Hname|Hname]; simpl in Hrun.
  - destruct (curl g0) eqn:Hcurl; [done|].
    destruct (fullCookieInfo g0) eqn:Hfull.
    + unfold serializeFullCookieInfoToJson, bind, get, ret in Hrun. simpl in Hrun.
      destruct (json.MarshalMap _ _ _) as [text|e']; simpl in Hrun; [done|].
      injection Hrun as <-. do 4 right. split_and!; [done..|]. by exists e'.
    + rewrite serializeCookiesToJson_object in Hrun. done.
  - destruct (getCookieValue (elems cookies) (name g0)) as [v [e2|]] eqn:Hv;
      simpl in Hrun; [|done].
    injection Hrun as <-. do 3 right. left. split; [done|].
    apply getCookieValue_error in Hv as [_ [->| ->]]; [by right|by left].
Qed.

(** ** The full-field formatter, result by result *)

Lemma encodeMembers_elem {A} (enc : A -> string + string)
    (l : list (string * A)) : forall js,
  json.encodeMembers enc l = inl js ->
  forall k j, (k, j) ∈ js <-> exists v, (k, v) ∈ l /\ enc v = inl j.
Proof.
  induction l as [|[k0 v0] l IH]; intros js; simpl.
  - intros [= <-] k j. split.
    + intros Hin. by apply elem_of_nil in Hin.
    + intros (v & Hin & _). by apply elem_of_nil in Hin.
  - destruct (enc v0) as [j0|e] eqn:He; [|done].
    destruct (json.encodeMembers enc l) as [js'|e]; [|done].
    intros [= <-] k j. rewrite elem_of_cons, (IH js' eq_refl). split.
    + intros [[= -> ->]|(v & Hin & Hv)].
      * exists v0. split; [apply elem_of_cons; by left|done].
      * exists v. split; [apply elem_of_cons; by right|done].
    + intros (v & Hin & Hv). apply elem_of_cons in Hin as [[= -> ->]|Hin].
      * left. congruence.
      * right. by exists v.
Qed.

(** C8, as amended.  When every field value that is to be written can be
    encoded, the full-field formatter returns, with a nil error, the text
    of an object that has exactly one member per distinct cookie name,
    in ascending order of the names.  The member of a name holds the
    object of the last record of that name; that object has a member for
    every field of the record, with the encoded value of the field,
    except that the field named Container is left out altogether unless
    the selected browser is firefox.  When some value cannot be encoded,
    the formatter returns an empty text together with the error. *)
Theorem serializeFullCookieInfoToJson_fields (cookies : list Cookie) g :
  ((forall n c f v,
      lastNamed cookies n c ->
      buildCookieMap (browser g) c !! f = Some v ->
      exists j, encodeValue v = inl j) ->
   exists outer,
     serializeFullCookieInfoToJson quote encodeValue cookies g
     = (Returns (json.object quote outer, None), g, [])
     /\ outer.*1 ≡ₚ remove_dups (kooky.Name <$> cookies)
     /\ StronglySorted String_as_OT.lt outer.*1
     /\ forall n text,
          (n, text) ∈ outer ->
          exists c fs,
            lastNamed cookies n c
            /\ text = json.object quote fs
            /\ StronglySorted String_as_OT.lt fs.*1
            /\ (forall f,
                  f ∈ fs.*1
                  <-> f ∈ (kooky.Fields c).*1
                      /\ (f = "Container" -> browser g = "firefox"))
            /\ (NoDup (kooky.Fields c).*1 ->
                forall f j,
                  (f, j) ∈ fs
                  <-> exists v,
                        (f, v) ∈ kooky.Fields c /\ encodeValue v = inl j
                        /\ (f = "Container" -> browser g = "firefox")))
  /\ (~ (forall n c f v,
           lastNamed cookies n c ->
           buildCookieMap (browser g) c !! f = Some v ->
           exists j, encodeValue v = inl j) ->
      exists e,
        serializeFullCookieInfoToJson quote encodeValue cookies g
        = (Returns ("", Some e), g, [])).
Proof.
  assert ((forall k fm, buildFullCookiesMap (browser g) cookies !! k = Some fm ->
             exists t, json.MarshalMap quote encodeValue fm = inl t)
          <-> forall n c f v,
                lastNamed cookies n c ->
                buildCookieMap (browser g) c !! f = Some v ->
                exists j, encodeValue v = inl j) as Hfields.
  { split.
    - intros Hall n c f v Hc Hf.
      assert (buildFullCookiesMap (browser g) cookies !! n
              = Some (buildCookieMap (browser g) c)) as Hn.
      { apply (lookup_named (buildCookieMap (browser g))). by exists c. }
      apply Hall in Hn.
      by apply (proj1 (MarshalMap_ok_iff encodeValue
                         (buildCookieMap (browser g) c)) Hn f).
    - intros Hall k fm Hk.
      apply (lookup_named (buildCookieMap (browser g))) in Hk as (c & Hc & <-).
      apply MarshalMap_ok_iff. intros f v Hf. by apply (Hall k c f v). }
  split.
  - intros Henc0. pose proof (proj2 Hfields Henc0) as Henc.
    assert (exists outer,
              json.encodeMembers (json.MarshalMap quote encodeValue)
                (json.sortedMembers (buildFullCookiesMap (browser g) cookies))
              = inl outer) as [outer Houter].
    { apply encodeMembers_ok_iff, Forall_forall. intros [k fm] Hin.
      apply elem_of_sortedMembers in Hin. by apply (Henc k). }
    exists outer. split_and!.
    + unfold serializeFullCookieInfoToJson, bind, get, ret. simpl.
      unfold json.MarshalMap at 1. by rewrite Houter.
    + rewrite (encodeMembers_keys _ _ _ Houter).
      apply (named_members (buildCookieMap (browser g))).
    + rewrite (encodeMembers_keys _ _ _ Houter). apply sortedMembers_ascending.
    + intros n text Hin.
      apply (encodeMembers_elem _ _ _ Houter) in Hin as (fm & Hfm & Ht).
      apply elem_of_sortedMembers in Hfm.
      apply (lookup_named (buildCookieMap (browser g))) in Hfm as (c & Hc & <-).
      unfold json.MarshalMap in Ht.
      destruct (json.encodeMembers encodeValue
                  (json.sortedMembers (buildCookieMap (browser g) c)))
        as [fs|e] eqn:Hfs; [|done].
      injection Ht as <-. exists c, fs. split_and!; [done|done| | |].
      * rewrite (encodeMembers_keys _ _ _ Hfs). apply sortedMembers_ascending.
      * intros f. rewrite (encodeMembers_keys _ _ _ Hfs).
        apply buildCookieMap_keys.
      * intros Hnd f j. rewrite (encodeMembers_elem _ _ _ Hfs). split.
        -- intros (v & Hv & Hj).
           apply (buildCookieMap_members _ _ _ _ Hnd) in Hv as [Hv Hb].
           by exists v.
        -- intros (v & Hv & Hj & Hb). exists v. split; [|done].
           by apply (buildCookieMap_members _ _ _ _ Hnd).
  - intros Hnot.
    unfold serializeFullCookieInfoToJson, bind, get, ret. simpl.
    destruct (json.MarshalMap quote (json.MarshalMap quote encodeValue)
                (buildFullCookiesMap (browser g) cookies)) as [text|e] eqn:Hm.
    + destruct Hnot. apply (proj1 Hfields).
      apply (proj1 (MarshalMap_ok_iff (json.MarshalMap quote encodeValue)
                      (buildFullCookiesMap (browser g) cookies))).
      by exists text.
    + by exists e.
Qed.

End Properties.

(** * The properties on the example data *)

(** The scenario of the specification: two chrome stores, the second one
    locked. *)
Example scenario_default_output :
  main quotePlain encodePlain scenarioHost [FlagDomain "example.com"]
  = (0, [EvFindAllCookieStores;
         EvReadCookies 0 exampleFilters; EvReadCookies 1 exampleFilters;
         EvClose 1; EvClose 0;
         EvPrintln ("{" +:+ quotePlain "sid" +:+ ":" +:+ quotePlain "abc"
                    +:+ "," +:+ quotePlain "theme" +:+ ":" +:+ quotePlain "dark"
                    +:+ "}")]).
Proof. vm_compute. reflexivity. Qed.

Example scenario_log_debug :
  stdout (main quotePlain encodePlain scenarioHost
            [FlagDomain "example.com"; FlagLogDebug true]).2
  = ["{" +:+ quotePlain "1" +:+ ":" +:+ quotePlain "locked" +:+ "}";
     "{" +:+ quotePlain "sid" +:+ ":" +:+ quotePlain "abc"
         +:+ "," +:+ quotePlain "theme" +:+ ":" +:+ quotePlain "dark" +:+ "}"].
Proof. vm_compute. reflexivity. Qed.

Example scenario_name :
  let res := main quotePlain encodePlain scenarioHost
               [FlagDomain "example.com"; FlagName "sid"] in
  res.1 = 0 /\ stdout res.2 = ["abc"].
Proof. vm_compute. done. Qed.

Example scenario_empty_value :
  let res := main quotePlain encodePlain
               [storeReturning "chrome" [exampleCookie "sid" ""] None]
               [FlagDomain "example.com"; FlagName "sid"] in
  res.1 = 1 /\ stdout res.2 = [].
Proof. vm_compute. done. Qed.

Example scenario_curl :
  stdout (main quotePlain encodePlain scenarioHost
            [FlagCurl true; FlagDomain "example.com"]).2
  = ["curl -H 'Cookie: sid=abc;theme=dark' 'https://example.com'"].
Proof. vm_compute. reflexivity. Qed.

Example scenario_no_matching_store :
  let res := main quotePlain encodePlain [firefoxStore] [FlagDomain "example.com"] in
  res.1 = 1 /\ stdout res.2 = [] /\ closes res.2 0 = 1.
Proof. vm_compute. done. Qed.

Example scenario_full_without_container :
  stdout (main quotePlain encodePlain [storeReturning "chrome" [sid] None]
            [FlagDomain "example.com"; FlagFull true]).2
  = ["{" +:+ quotePlain "sid" +:+ ":{"
         +:+ quotePlain "Cookie" +:+ ":" +:+ quotePlain "sid=abc" +:+ ","
         +:+ quotePlain "Creation" +:+ ":" +:+ quotePlain "2024-01-01T00:00:00Z"
         +:+ "}}"].
Proof. vm_compute. reflexivity. Qed.

Example scenario_full_firefox :
  stdout (main quotePlain encodePlain [firefoxStore]
            [FlagDomain "example.com"; FlagFull true; FlagBrowser "firefox"]).2
  = ["{" +:+ quotePlain "fx" +:+ ":{"
         +:+ quotePlain "Container" +:+ ":" +:+ quotePlain "work" +:+ ","
         +:+ quotePlain "Cookie" +:+ ":" +:+ quotePlain "fx=1" +:+ ","
         +:+ quotePlain "Creation" +:+ ":" +:+ quotePlain "2024-01-01T00:00:00Z"
         +:+ "}}"].
Proof. vm_compute. reflexivity. Qed.

(** A panicking read: the stores reached are closed, the later one is
    not, and the process ends with status 2. *)
Example scenario_panic :
  main quotePlain encodePlain [lockedStore; panickingStore; chromeStore]
       [FlagDomain "example.com"]
  = (2, [EvFindAllCookieStores;
         EvReadCookies 0 exampleFilters; EvReadCookies 1 exampleFilters;
         EvClose 1; EvClose 0]).
Proof. vm_compute. reflexivity. Qed.

(** ** Aggregation *)

(** A read that fails and still returns a cookie: the cookie is in the
    aggregate, which therefore differs from the concatenation of the
    successfully read sequences. *)
Lemma failed_read_cookies_are_aggregated :
  kooky.ReadCookies partialStore exampleFilters
  = kooky.ReadReturns [sid] (Some "locked")
  /\ (getCookies [partialStore] "chrome" "example.com" initial).1
     = (Returns (mk_slice [sid], None), set_cookieStoreErrors ["locked"] initial)
  /\ successfullyRead "chrome" exampleFilters [partialStore] = []
  /\ elems (mk_slice [sid])
     <> successfullyRead "chrome" exampleFilters [partialStore].
Proof. vm_compute. split_and!; [reflexivity..|discriminate]. Qed.

Lemma getCookies_aggregates_returned_reads_witness :
  Forall returned (reads "chrome" exampleFilters scenarioHost)
  /\ exists cookies err t,
       getCookies scenarioHost "chrome" "example.com" initial
       = (Returns (cookies, err), set_cookieStoreErrors ["locked"] initial, t)
       /\ elems cookies = [sid; theme]
       /\ elems cookies = successfullyRead "chrome" exampleFilters scenarioHost.
Proof.
  assert (Forall returned (reads "chrome" exampleFilters scenarioHost)) as Hall.
  { vm_compute. repeat constructor. }
  split; [exact Hall|].
  destruct (getCookies_aggregates_returned_reads
              scenarioHost "chrome" "example.com" initial Hall)
    as (cookies & err & t & Heq & Helems & Hok).
  exists cookies, err, t. split_and!.
  - exact Heq.
  - exact Helems.
  - apply Hok. vm_compute. repeat constructor; intros; done.
Defined.

Lemma every_store_closed_exactly_once_witness :
  Forall returned (reads "chrome" exampleFilters [chromeStore; firefoxStore; lockedStore])
  /\ closes (getCookies
               [chromeStore; firefoxStore; lockedStore; panickingStore; chromeStore]
               "chrome" "example.com" initial).2 3 = 1
  /\ Forall returned (reads "chrome" exampleFilters [chromeStore; firefoxStore; lockedStore])
  /\ forall i, i < 3 ->
       closes (getCookies [chromeStore; firefoxStore; lockedStore]
                 "chrome" "example.com" initial).2 i = 1.
Proof.
  assert (Forall returned
            (reads "chrome" exampleFilters [chromeStore; firefoxStore; lockedStore]))
    as Hall.
  { vm_compute. repeat constructor. }
  split_and!; [exact Hall| |exact Hall|].
  - exact (proj2 (every_store_closed_exactly_once
                    [chromeStore; firefoxStore; lockedStore; panickingStore; chromeStore]
                    "chrome" "example.com" initial)
                 [chromeStore; firefoxStore; lockedStore] panickingStore [chromeStore]
                 eq_refl Hall).
  - exact (proj2 (proj1 (every_store_closed_exactly_once
                           [chromeStore; firefoxStore; lockedStore]
                           "chrome" "example.com" initial) Hall)).
Defined.

(** No cookie was read successfully, and yet the aggregation does not
    fail: the cookie of the failed read makes the slice non-nil. *)
Lemma aggregation_succeeds_on_failed_read_cookies :
  successfullyRead "chrome" exampleFilters [partialStore] = []
  /\ (getCookies [partialStore] "chrome" "example.com" initial).1.1
     = Returns (mk_slice [sid], None).
Proof. vm_compute. split; reflexivity. Qed.

Lemma getCookies_fails_iff_no_cookie_returned_witness :
  Forall returned (reads "chrome" exampleFilters [firefoxStore; lockedStore])
  /\ returnedCookies "chrome" exampleFilters [firefoxStore; lockedStore] = []
  /\ exists cookies,
       (getCookies [firefoxStore; lockedStore] "chrome" "example.com" initial).1.1
       = Returns (cookies, Some (errNoCookies "chrome" "example.com")).
Proof.
  assert (Forall returned (reads "chrome" exampleFilters [firefoxStore; lockedStore]))
    as Hall.
  { vm_compute. repeat constructor. }
  split_and!; [exact Hall|vm_compute; reflexivity|].
  destruct (getCookies_fails_iff_no_cookie_returned
              [firefoxStore; lockedStore] "chrome" "example.com" initial Hall)
    as (cookies & err & Heq & Hfail & _).
  exists cookies. rewrite Heq. f_equal. f_equal. apply Hfail.
  vm_compute. reflexivity.
Defined.

(** ** Single-value lookup *)

Lemma getCookieValue_first_exact_match_witness :
  firstNamed [theme; sid; exampleCookie "sid" "other"] "sid" sid
  /\ kooky.Value sid <> ""
  /\ getCookieValue [theme; sid; exampleCookie "sid" "other"] "sid" = ("abc", None)
  /\ Forall (fun c => kooky.Name c <> "SID") [theme; sid]
  /\ getCookieValue [theme; sid] "SID" = ("", Some errDoesNotExist).
Proof.
  assert (firstNamed [theme; sid; exampleCookie "sid" "other"] "sid" sid) as Hfirst.
  { exists [theme], [exampleCookie "sid" "other"]. split_and!; [done..|].
    by repeat constructor. }
  assert (kooky.Value sid <> "") as Hval by done.
  assert (Forall (fun c : kooky.Cookie string => kooky.Name c <> "SID") [theme; sid])
    as Hnone by (by repeat constructor).
  split_and!; [exact Hfirst|exact Hval| |exact Hnone|].
  - exact (proj1 (getCookieValue_first_exact_match
                    [theme; sid; exampleCookie "sid" "other"] "sid")
                 sid Hfirst Hval).
  - exact (proj1 (proj2 (proj2 (getCookieValue_first_exact_match [theme; sid] "SID")))
                 Hnone).
Defined.

(** ** Flag resolution *)

(** With no flag at all, and with help among the flags, the domain is
    empty (or curl and name are both set) and yet the process prints the
    usage text and exits with status 0. *)
Lemma usage_takes_precedence_over_flag_checks :
  domain (Parse [] (declareFlags initial)) = ""
  /\ (parseFlags [] initial).1.1 = Exits 0
  /\ (main quotePlain encodePlain scenarioHost []).1 = 0
  /\ curl (Parse [FlagCurl true; FlagName "sid"; FlagHelp true]
             (declareFlags initial)) = true
  /\ name (Parse [FlagCurl true; FlagName "sid"; FlagHelp true]
             (declareFlags initial)) = "sid"
  /\ (parseFlags [FlagCurl true; FlagName "sid"; FlagHelp true] initial).1.1
     = Exits 0
  /\ (main quotePlain encodePlain scenarioHost
        [FlagCurl true; FlagName "sid"; FlagHelp true]).1 = 0.
Proof. vm_compute. done. Qed.

Lemma config_error_before_any_store_access_witness :
  help (Parse [FlagCurl true; FlagName "sid"; FlagDomain "example.com"]
          (declareFlags initial)) = false
  /\ NFlag [FlagCurl true; FlagName "sid"; FlagDomain "example.com"] <> 0
  /\ main quotePlain encodePlain scenarioHost
       [FlagCurl true; FlagName "sid"; FlagDomain "example.com"] = (1, []).
Proof.
  assert (help (Parse [FlagCurl true; FlagName "sid"; FlagDomain "example.com"]
                  (declareFlags initial)) = false) as Hh
    by (vm_compute; reflexivity).
  assert (NFlag [FlagCurl true; FlagName "sid"; FlagDomain "example.com"] <> 0)
    as Hn by (vm_compute; discriminate).
  assert (curl (Parse [FlagCurl true; FlagName "sid"; FlagDomain "example.com"]
                  (declareFlags initial)) = true
          /\ name (Parse [FlagCurl true; FlagName "sid"; FlagDomain "example.com"]
                     (declareFlags initial)) <> "") as Hboth
    by (vm_compute; split; [reflexivity|discriminate]).
  split_and!; [exact Hh|exact Hn|].
  destruct (config_error_before_any_store_access quotePlain encodePlain
              scenarioHost [FlagCurl true; FlagName "sid"; FlagDomain "example.com"]
              Hh Hn (or_intror Hboth))
    as (e & _ & _ & _ & Hmain).
  exact Hmain.
Defined.

(** ** The formatters *)

Lemma serializeCookiesToJson_order_independent_witness :
  [sid; theme] ≡ₚ [theme; sid]
  /\ NoDup (kooky.Name <$> [sid; theme])
  /\ serializeCookiesToJson quotePlain [sid; theme]
     = serializeCookiesToJson quotePlain [theme; sid].
Proof.
  assert (NoDup (kooky.Name <$> [sid; theme])) as Hnd by compute_done.
  split_and!; [apply perm_swap|exact Hnd|].
  exact (proj1 (serializeCookiesToJson_order_independent quotePlain
                  [sid; theme] [theme; sid] (perm_swap theme sid []) Hnd)).
Defined.

(** A field value that cannot be encoded: the formatter returns no text
    but the error, and the process prints nothing and exits with status
    1. *)
Lemma full_json_fails_on_unencodable_value :
  serializeFullCookieInfoToJson quotePlain encodeInRange [farFuture] initial
  = (Returns ("", Some errYearOutOfRange), initial, [])
  /\ main quotePlain encodeInRange [storeReturning "chrome" [farFuture] None]
       [FlagDomain "example.com"; FlagFull true]
     = (1, [EvFindAllCookieStores; EvReadCookies 0 exampleFilters; EvClose 0]).
Proof. vm_compute. split; reflexivity. Qed.

Lemma serializeFullCookieInfoToJson_fields_witness :
  (forall v : string, exists j, encodePlain v = inl j)
  /\ exists outer,
       serializeFullCookieInfoToJson quotePlain encodePlain [sid; theme]
         (set_browser "chrome" initial)
       = (Returns (json.object quotePlain outer, None),
          set_browser "chrome" initial, [])
       /\ forall n text,
            (n, text) ∈ outer ->
            exists c fs,
              lastNamed [sid; theme] n c
              /\ text = json.object quotePlain fs
              /\ "Container" ∉ fs.*1.
Proof.
  assert (forall v : string, exists j, encodePlain v = inl j) as Henc.
  { intros v. by exists (quotePlain v). }
  split; [exact Henc|].
  destruct (proj1 (serializeFullCookieInfoToJson_fields quotePlain encodePlain
                     [sid; theme] (set_browser "chrome" initial))
                  (fun n c f v _ _ => Henc v))
    as (outer & Heq & _ & _ & Hmembers).
  exists outer. split; [exact Heq|].
  intros n text Hin.
  destruct (Hmembers n text Hin) as (c & fs & Hc & Ht & _ & Hkeys & _).
  exists c, fs. split_and!; [exact Hc|exact Ht|].
  intros Hcont. apply Hkeys in Hcont as [_ Hb].
  specialize (Hb eq_refl). discriminate Hb.
Defined.

(** ** The store-error report *)

Lemma store_errors_report_witness :
  parseFlags debugArgs initial = (Returns None, debugGlobals, [])
  /\ debug debugGlobals = true
  /\ getCookies scenarioHost "chrome" "example.com" debugGlobals
     = (Returns (mk_slice [sid; theme], None),
        set_cookieStoreErrors ["locked"] debugGlobals, scenarioTrace)
  /\ exists o t2,
       run quotePlain encodePlain scenarioHost debugArgs initial
       = (o, set_cookieStoreErrors ["locked"] debugGlobals,
          scenarioTrace
            ++ EvPrintln ("{" +:+ quotePlain "1" +:+ ":" +:+ quotePlain "locked" +:+ "}")
            :: t2).
Proof.
  assert (parseFlags debugArgs initial = (Returns None, debugGlobals, [])) as Hp
    by (vm_compute; reflexivity).
  assert (getCookies scenarioHost (browser debugGlobals) (domain debugGlobals)
            debugGlobals
          = (Returns (mk_slice [sid; theme], None),
             set_cookieStoreErrors ["locked"] debugGlobals, scenarioTrace)) as Hg
    by (vm_compute; reflexivity).
  split_and!; [exact Hp|reflexivity|exact Hg|].
  destruct (store_errors_report quotePlain encodePlain scenarioHost debugArgs
              debugGlobals [] (mk_slice [sid; theme])
              (set_cookieStoreErrors ["locked"] debugGlobals) scenarioTrace
              Hp eq_refl Hg)
    as (_ & _ & o & t2 & _ & Hrun & _).
  exists o, t2. rewrite Hrun. vm_compute. reflexivity.
Defined.

(** The debug flag is set and a store error has been recorded, but the
    aggregation fails: [run] returns before the debug block, and nothing
    is written to standard output. *)
Lemma no_error_report_when_aggregation_fails :
  debug (Parse debugArgs (declareFlags initial)) = true
  /\ run quotePlain encodePlain [lockedStore] debugArgs initial
     = (Returns (Some (wrap "failed to obtain cookies"
                         (errNoCookies "chrome" "example.com"))),
        set_cookieStoreErrors ["locked"] debugGlobals,
        [EvFindAllCookieStores; EvReadCookies 0 exampleFilters; EvClose 0])
  /\ stdout (run quotePlain encodePlain [lockedStore] debugArgs initial).2 = []
  /\ main quotePlain encodePlain [lockedStore] debugArgs
     = (1, [EvFindAllCookieStores; EvReadCookies 0 exampleFilters; EvClose 0]).
Proof. vm_compute. split_and!; reflexivity. Qed.

(** * Further properties on the example data *)

Ltac solve_flagsAccepted :=
  unfold flagsAccepted; vm_compute;
  split_and!;
  [ reflexivity | discriminate | discriminate
  | intros [Hc Hn]; first [discriminate Hc | exact (Hn eq_refl)] ].

Ltac solve_not_usageRequested :=
  unfold usageRequested; vm_compute; intros [Hh|Hn]; discriminate.

Ltac solve_returned := vm_compute; repeat constructor.

(** ** Aggregation *)

Lemma getCookies_reads_matching_stores_only_witness :
  Forall returned (reads "chrome" exampleFilters [firefoxStore; chromeStore])
  /\ EvReadCookies 1 exampleFilters
       ∈ (getCookies [firefoxStore; chromeStore] "chrome" "example.com" initial).2
  /\ forall j filters',
       EvReadCookies j filters'
         ∈ (getCookies [firefoxStore; chromeStore] "chrome" "example.com" initial).2 ->
       filters' = exampleFilters
       /\ exists s, [firefoxStore; chromeStore] !! j = Some s
                    /\ kooky.Browser s = "chrome".
Proof.
  assert (Forall returned (reads "chrome" exampleFilters [firefoxStore; chromeStore]))
    as Hall by solve_returned.
  destruct (getCookies_reads_matching_stores_only
              [firefoxStore; chromeStore] "chrome" "example.com" initial)
    as (Honly & _ & _ & Hevery).
  split_and!; [exact Hall| |exact Honly].
  exact (Hevery Hall 1 chromeStore eq_refl eq_refl).
Defined.

Lemma getCookies_closes_last_in_first_out_witness :
  Forall returned (reads "chrome" exampleFilters scenarioHost)
  /\ exists rs,
       (getCookies scenarioHost "chrome" "example.com" initial).2
       = EvFindAllCookieStores :: rs ++ [EvClose 1; EvClose 0]
       /\ Forall isRead rs.
Proof.
  assert (Forall returned (reads "chrome" exampleFilters scenarioHost))
    as Hall by solve_returned.
  split; [exact Hall|].
  destruct (getCookies_closes_last_in_first_out
              scenarioHost "chrome" "example.com" initial)
    as (rs & k & Ht & Hrs & _ & Hk).
  exists rs. rewrite Ht, (Hk Hall). split; [reflexivity|exact Hrs].
Defined.

Lemma getCookies_panic_leaves_later_stores_untouched_witness :
  Forall returned (reads "chrome" exampleFilters [lockedStore])
  /\ kooky.ReadCookies panickingStore exampleFilters
     = kooky.ReadPanics "database is nil"
  /\ (getCookies [lockedStore; panickingStore; chromeStore]
        "chrome" "example.com" initial).1
     = (Panics "database is nil", set_cookieStoreErrors ["locked"] initial)
  /\ closes (getCookies [lockedStore; panickingStore; chromeStore]
               "chrome" "example.com" initial).2 2 = 0.
Proof.
  assert (Forall returned (reads "chrome" exampleFilters [lockedStore]))
    as Hall by solve_returned.
  destruct (getCookies_panic_leaves_later_stores_untouched
              [lockedStore; panickingStore; chromeStore]
              [lockedStore] panickingStore [chromeStore]
              "chrome" "example.com" initial "database is nil"
              eq_refl Hall eq_refl eq_refl)
    as (Hres & Hclosed & _ & _).
  split_and!; [exact Hall|reflexivity|exact Hres|].
  apply Hclosed. simpl. lia.
Defined.

Lemma getCookies_without_matching_store_witness :
  Forall (fun s : kooky.CookieStore string => kooky.Browser s <> "chrome")
         [firefoxStore; firefoxStore]
  /\ getCookies [firefoxStore; firefoxStore] "chrome" "example.com" initial
     = (Returns (nil_slice, Some (errNoCookies "chrome" "example.com")), initial,
        [EvFindAllCookieStores; EvClose 1; EvClose 0]).
Proof.
  assert (Forall (fun s : kooky.CookieStore string => kooky.Browser s <> "chrome")
                 [firefoxStore; firefoxStore]) as Hnone.
  { repeat constructor; discriminate. }
  split; [exact Hnone|].
  exact (getCookies_without_matching_store
           [firefoxStore; firefoxStore] "chrome" "example.com" initial Hnone).
Defined.

Lemma getCookies_result_convention_witness :
  getCookies scenarioHost "chrome" "example.com" initial
  = (Returns (mk_slice [sid; theme], None),
     set_cookieStoreErrors ["locked"] initial, scenarioTrace)
  /\ ((@None string = None
       /\ exists c cs, mk_slice [sid; theme] = mk_slice (c :: cs))
      \/ (None = Some (errNoCookies "chrome" "example.com")
          /\ mk_slice [sid; theme] = nil_slice)).
Proof.
  assert (getCookies scenarioHost "chrome" "example.com" initial
          = (Returns (mk_slice [sid; theme], None),
             set_cookieStoreErrors ["locked"] initial, scenarioTrace)) as Hres
    by (vm_compute; reflexivity).
  split; [exact Hres|].
  exact (getCookies_result_convention scenarioHost "chrome" "example.com" initial
           (mk_slice [sid; theme]) None
           (set_cookieStoreErrors ["locked"] initial) scenarioTrace Hres).
Defined.

(** ** Flag resolution *)

Lemma parseFlags_accepts_iff_witness :
  ~ usageRequested [FlagCurl true; FlagName "sid"]
  /\ domain (Parse [FlagCurl true; FlagName "sid"] (declareFlags initial)) = ""
  /\ parseFlags [FlagCurl true; FlagName "sid"] initial
     = (Returns (Some errDomainRequired),
        Parse [FlagCurl true; FlagName "sid"] (declareFlags initial), []).
Proof.
  assert (~ usageRequested [FlagCurl true; FlagName "sid"]) as Hu
    by solve_not_usageRequested.
  assert (domain (Parse [FlagCurl true; FlagName "sid"] (declareFlags initial)) = "")
    as Hd by (vm_compute; reflexivity).
  split_and!; [exact Hu|exact Hd|].
  exact (proj2 (parseFlags_accepts_iff [FlagCurl true; FlagName "sid"]) Hu Hd).
Defined.

(** ** Whole runs *)


Lemma no_cookies_is_fatal_witness :
  flagsAccepted debugArgs
  /\ Forall returned (reads "chrome" exampleFilters [lockedStore; firefoxStore])
  /\ returnedCookies "chrome" exampleFilters [lockedStore; firefoxStore] = []
  /\ main quotePlain encodePlain [lockedStore; firefoxStore] debugArgs
     = (1, [EvFindAllCookieStores; EvReadCookies 0 exampleFilters;
            EvClose 1; EvClose 0]).
Proof.
  assert (flagsAccepted debugArgs) as Hacc by solve_flagsAccepted.
  assert (Forall returned (reads "chrome" exampleFilters [lockedStore; firefoxStore]))
    as Hall by solve_returned.
  assert (returnedCookies "chrome" exampleFilters [lockedStore; firefoxStore] = [])
    as Hnil by (vm_compute; reflexivity).
  split_and!; [exact Hacc|exact Hall|exact Hnil|].
  destruct (no_cookies_is_fatal quotePlain encodePlain [lockedStore; firefoxStore]
              debugArgs Hacc Hall Hnil) as (_ & Hmain & _).
  rewrite Hmain. vm_compute. reflexivity.
Defined.

Lemma default_and_curl_modes_succeed_witness :
  flagsAccepted [FlagCurl true; FlagDomain "example.com"]
  /\ Forall returned (reads "chrome" exampleFilters scenarioHost)
  /\ returnedCookies "chrome" exampleFilters scenarioHost <> []
  /\ (main quotePlain encodePlain scenarioHost
        [FlagCurl true; FlagDomain "example.com"]).1 = 0
  /\ stdout (main quotePlain encodePlain scenarioHost
               [FlagCurl true; FlagDomain "example.com"]).2
     = ["curl -H 'Cookie: sid=abc;theme=dark' 'https://example.com'"].
Proof.
  assert (flagsAccepted [FlagCurl true; FlagDomain "example.com"]) as Hacc
    by solve_flagsAccepted.
  assert (Forall returned (reads "chrome" exampleFilters scenarioHost))
    as Hall by solve_returned.
  assert (returnedCookies "chrome" exampleFilters scenarioHost <> [])
    as Hne by (vm_compute; discriminate).
  assert (name (Parse [FlagCurl true; FlagDomain "example.com"]
                  (declareFlags initial)) = "") as Hname
    by (vm_compute; reflexivity).
  assert (curl (Parse [FlagCurl true; FlagDomain "example.com"]
                  (declareFlags initial)) = true) as Hcurl
    by (vm_compute; reflexivity).
  split_and!; [exact Hacc|exact Hall|exact Hne| |].
  - exact (proj1 (default_and_curl_modes_succeed quotePlain encodePlain
                    scenarioHost [FlagCurl true; FlagDomain "example.com"]
                    Hacc Hall Hne Hname (or_introl Hcurl))).
  - rewrite (proj2 (default_and_curl_modes_succeed quotePlain encodePlain
                      scenarioHost [FlagCurl true; FlagDomain "example.com"]
                      Hacc Hall Hne Hname (or_introl Hcurl))).
    vm_compute. reflexivity.
Defined.

Lemma lookup_mode_exit_status_witness :
  flagsAccepted [FlagDomain "example.com"; FlagName "sid"]
  /\ Forall returned (reads "chrome" exampleFilters scenarioHost)
  /\ returnedCookies "chrome" exampleFilters scenarioHost <> []
  /\ firstNamed (returnedCookies "chrome" exampleFilters scenarioHost) "sid" sid
  /\ (main quotePlain encodePlain scenarioHost
        [FlagDomain "example.com"; FlagName "sid"]).1 = 0.
Proof.
  assert (flagsAccepted [FlagDomain "example.com"; FlagName "sid"]) as Hacc
    by solve_flagsAccepted.
  assert (Forall returned (reads "chrome" exampleFilters scenarioHost))
    as Hall by solve_returned.
  assert (returnedCookies "chrome" exampleFilters scenarioHost <> [])
    as Hne by (vm_compute; discriminate).
  assert (name (Parse [FlagDomain "example.com"; FlagName "sid"]
                  (declareFlags initial)) <> "") as Hname
    by (vm_compute; discriminate).
  assert (firstNamed (returnedCookies "chrome" exampleFilters scenarioHost) "sid" sid)
    as Hfirst.
  { exists [], [theme]. split_and!; [vm_compute; reflexivity|reflexivity|constructor]. }
  split_and!; [exact Hacc|exact Hall|exact Hne|exact Hfirst|].
  apply (proj1 (lookup_mode_exit_status quotePlain encodePlain scenarioHost
                  [FlagDomain "example.com"; FlagName "sid"]
                  Hacc Hall Hne Hname)).
  exists sid. split; [exact Hfirst|discriminate].
Defined.

Lemma debug_line_without_store_errors_witness :
  flagsAccepted debugArgs
  /\ Forall (fun r => exists cs, r = kooky.ReadReturns cs None)
            (reads "chrome" exampleFilters [chromeStore; firefoxStore])
  /\ exists rest,
       stdout (main quotePlain encodePlain [chromeStore; firefoxStore] debugArgs).2
       = "{}" :: rest.
Proof.
  assert (flagsAccepted debugArgs) as Hacc by solve_flagsAccepted.
  assert (Forall (fun r => exists cs, r = kooky.ReadReturns cs None)
                 (reads "chrome" exampleFilters [chromeStore; firefoxStore]))
    as Hok.
  { vm_compute. repeat constructor. by eexists. }
  assert (returnedCookies "chrome" exampleFilters [chromeStore; firefoxStore] <> [])
    as Hne by (vm_compute; discriminate).
  split_and!; [exact Hacc|exact Hok|].
  exact (debug_line_without_store_errors quotePlain encodePlain
           [chromeStore; firefoxStore] debugArgs Hacc Hok Hne eq_refl).
Defined.

Lemma default_browser_and_filters_witness :
  flagsAccepted [FlagDomain "example.com"]
  /\ (forall v, FlagBrowser v ∉ [FlagDomain "example.com"])
  /\ (forall v, FlagExpired v ∉ [FlagDomain "example.com"])
  /\ EvReadCookies 1 exampleFilters
       ∈ (main quotePlain encodePlain [firefoxStore; chromeStore]
            [FlagDomain "example.com"]).2
  /\ exists s, [firefoxStore; chromeStore] !! 1 = Some s
               /\ kooky.Browser s = "chrome".
Proof.
  assert (flagsAccepted [FlagDomain "example.com"]) as Hacc by solve_flagsAccepted.
  assert (forall v, FlagBrowser v ∉ [FlagDomain "example.com"]) as Hnb.
  { intros v Hin. apply list_elem_of_singleton in Hin. discriminate. }
  assert (forall v, FlagExpired v ∉ [FlagDomain "example.com"]) as Hne.
  { intros v Hin. apply list_elem_of_singleton in Hin. discriminate. }
  assert (EvReadCookies 1 exampleFilters
            ∈ (main quotePlain encodePlain [firefoxStore; chromeStore]
                 [FlagDomain "example.com"]).2) as Hin.
  { vm_compute. repeat constructor. }
  split_and!; [exact Hacc|exact Hnb|exact Hne|exact Hin|].
  exact (proj2 (default_browser_and_filters quotePlain encodePlain
                  [firefoxStore; chromeStore] [FlagDomain "example.com"]
                  Hacc Hnb Hne 1 exampleFilters Hin)).
Defined.

Lemma stores_closed_on_every_path_witness :
  flagsAccepted [FlagDomain "example.com"; FlagName "missing"]
  /\ Forall returned (reads "chrome" exampleFilters scenarioHost)
  /\ (main quotePlain encodePlain scenarioHost
        [FlagDomain "example.com"; FlagName "missing"]).1 = 1
  /\ closes (main quotePlain encodePlain scenarioHost
               [FlagDomain "example.com"; FlagName "missing"]).2 1 = 1
  /\ ~ flagsAccepted [FlagName "sid"]
  /\ closes (main quotePlain encodePlain scenarioHost [FlagName "sid"]).2 1 = 0.
Proof.
  assert (flagsAccepted [FlagDomain "example.com"; FlagName "missing"]) as Hacc
    by solve_flagsAccepted.
  assert (Forall returned (reads "chrome" exampleFilters scenarioHost))
    as Hall by solve_returned.
  assert (~ flagsAccepted [FlagName "sid"]) as Hrej.
  { unfold flagsAccepted. vm_compute. intros (_ & _ & Hd & _). exact (Hd eq_refl). }
  split_and!; [exact Hacc|exact Hall|vm_compute; reflexivity| |exact Hrej|].
  - apply (proj2 (stores_closed_on_every_path quotePlain encodePlain scenarioHost
                    [FlagDomain "example.com"; FlagName "missing"]) Hacc Hall).
    simpl. lia.
  - exact (proj2 (proj1 (stores_closed_on_every_path quotePlain encodePlain
                           scenarioHost [FlagName "sid"]) Hrej) 1).
Defined.

(** ** The formatters *)

Lemma lookup_agrees_with_object_witness :
  NoDup (kooky.Name <$> [sid; theme])
  /\ getCookieValue [sid; theme] "sid" = ("abc", None)
  /\ buildCookiesMap [sid; theme] !! "sid" = Some "abc"
  /\ getCookieValue [sid; theme] "csrf" = ("", Some errDoesNotExist)
  /\ buildCookiesMap [sid; theme] !! "csrf" = None.
Proof.
  assert (NoDup (kooky.Name <$> [sid; theme])) as Hnd by compute_done.
  assert (getCookieValue [sid; theme] "sid" = ("abc", None)) as Hsid
    by (vm_compute; reflexivity).
  assert (getCookieValue [sid; theme] "csrf" = ("", Some errDoesNotExist)) as Hcsrf
    by (vm_compute; reflexivity).
  split_and!; [exact Hnd|exact Hsid| |exact Hcsrf|].
  - apply (proj2 (lookup_agrees_with_object [sid; theme] "sid") Hnd "abc");
      [discriminate|exact Hsid].
  - apply (proj1 (lookup_agrees_with_object [sid; theme] "csrf")). exact Hcsrf.
Defined.

Lemma serializeFullCookieInfoToJson_fails_iff_witness :
  (forall v : string, exists j, encodePlain v = inl j)
  /\ exists text,
       serializeFullCookieInfoToJson quotePlain encodePlain [sid; theme] initial
       = (Returns (text, None), initial, []).
Proof.
  assert (forall v : string, exists j, encodePlain v = inl j) as Henc.
  { intros v. by exists (quotePlain v). }
  split; [exact Henc|].
  destruct (serializeFullCookieInfoToJson_fails_iff quotePlain encodePlain
              [sid; theme] initial) as (text & err & Heq & Hiff & _).
  exists text. rewrite Heq.
  assert (err = None) as ->; [|reflexivity].
  apply Hiff. intros n c f v _ _. apply Henc.
Defined.

Lemma run_error_taxonomy_witness :
  (run quotePlain encodePlain [storeReturning "chrome" [exampleCookie "sid" ""] None]
     [FlagDomain "example.com"; FlagName "sid"] initial).1.1
  = Returns (Some (wrap ("failed to get value for cookie " +:+ "sid") errEmptyValue))
  /\ (wrap ("failed to get value for cookie " +:+ "sid") errEmptyValue
      = wrap "failed to obtain cookies" (errNoCookies "chrome" "example.com")
      \/ wrap ("failed to get value for cookie " +:+ "sid") errEmptyValue
         = wrap ("failed to get value for cookie " +:+ "sid") errDoesNotExist
      \/ wrap ("failed to get value for cookie " +:+ "sid") errEmptyValue
         = wrap ("failed to get value for cookie " +:+ "sid") errEmptyValue).
Proof.
  assert ((run quotePlain encodePlain
             [storeReturning "chrome" [exampleCookie "sid" ""] None]
             [FlagDomain "example.com"; FlagName "sid"] initial).1.1
          = Returns (Some (wrap ("failed to get value for cookie " +:+ "sid")
                             errEmptyValue))) as Hrun
    by (vm_compute; reflexivity).
  split; [exact Hrun|].
  destruct (run_error_taxonomy quotePlain encodePlain
              [storeReturning "chrome" [exampleCookie "sid" ""] None]
              [FlagDomain "example.com"; FlagName "sid"] _ Hrun)
    as [[Habs _]|[[Habs _]|[H3|[[_ [H4|H4]]|(Habs & _)]]]].
  - vm_compute in Habs. discriminate Habs.
  - vm_compute in Habs. discriminate Habs.
  - left. exact H3.
  - right. left. exact H4.
  - right. right. exact H4.
  - vm_compute in Habs. discriminate Habs.
Defined.
